(** * Session arbitration: the [ActiveSessionManager] of [src/index.tsx]

    A shallow embedding of the single-active-tab detector: the browser's
    [localStorage] as an ordered key/value store whose operations may throw,
    the instance as a record of its private fields, the methods as programs
    of a small state-and-exception monad, and the sweep loop of
    [claimSession] as the index-driven loop the source writes. *)

From Stdlib Require Import String List Arith Bool Lia.
From Stdlib Require Import NArith Ascii.
Import ListNotations.
Local Open Scope string_scope.
Local Open Scope list_scope.

(** ** Constants of the source *)

Definition ACTIVE_SESSION_KEY_PREFIX : string := "semanticAppActiveSession_".

(** The sentinel written under a claim key. *)
Definition SENTINEL : string := "active".

Definition CLAIM_WARNING : string :=
  "Could not access localStorage for session management:".

Definition CHECK_WARNING : string :=
  "Error during periodic session check:".

(** ** The storage area

    [localStorage] is an ordered collection of key/value pairs with one entry
    per key; [key(i)] enumerates it by position.  Removing an entry shifts
    the later ones down by one position, a new key is appended, and an
    existing key is overwritten in place. *)

Definition Storage : Type := list (string * string).

Definition keys (s : Storage) : list string := map fst s.

Definition ls_key (i : nat) (s : Storage) : option string :=
  option_map fst (nth_error s i).

Fixpoint ls_getItem (k : string) (s : Storage) : option string :=
  match s with
  | [] => None
  | (k', v) :: s' => if String.eqb k k' then Some v else ls_getItem k s'
  end.

Fixpoint ls_setItem (k v : string) (s : Storage) : Storage :=
  match s with
  | [] => [(k, v)]
  | (k', v') :: s' =>
      if String.eqb k k' then (k, v) :: s' else (k', v') :: ls_setItem k v s'
  end.

Definition ls_removeItem (k : string) (s : Storage) : Storage :=
  filter (fun kv => negb (String.eqb k (fst kv))) s.

(** [key.startsWith(ACTIVE_SESSION_KEY_PREFIX)] *)
Definition isClaimKey (k : string) : bool :=
  String.prefix ACTIVE_SESSION_KEY_PREFIX k.

Arguments isClaimKey : simpl never.

(** [`${ACTIVE_SESSION_KEY_PREFIX}${this.sessionId}`] *)
Definition claimKeyOf (sid : string) : string :=
  (ACTIVE_SESSION_KEY_PREFIX ++ sid)%string.

Arguments claimKeyOf : simpl never.

(** The claim keys present in a storage area, in enumeration order. *)
Definition claimKeys (s : Storage) : list string :=
  filter isClaimKey (keys s).

(** ** The environment of an instance *)

(** The storage operations the class performs; each may throw. *)
Inductive StorageOp : Type :=
| OpLength | OpKey | OpGetItem | OpSetItem | OpRemoveItem.

(** The conflict callback handed to the constructor.  It is observed through
    the trace: a call is recorded under [cb_id], and it may itself throw.  It
    touches neither the storage area nor the instance (in the application it
    only sets two pieces of UI state). *)
Record Callback : Type := mkCallback {
  cb_id : nat;
  cb_throws : bool
}.

Inductive Event : Type :=
| Warn (msg : string)
| ConflictCalled (cb : nat).

Record World : Type := mkWorld {
  storage : Storage;
  (** which storage operations currently throw *)
  faults : StorageOp -> bool;
  (** handles of the running interval timers *)
  timers : list nat;
  (** the last timer handle handed out *)
  timerSeq : nat;
  (** console warnings and callback invocations, oldest first *)
  events : list Event;
  (** ghost counter: storage operations that have thrown so far *)
  storageFailures : nat
}.

Definition set_storage (s : Storage) (w : World) : World :=
  mkWorld s (faults w) (timers w) (timerSeq w) (events w) (storageFailures w).

Definition set_faults (f : StorageOp -> bool) (w : World) : World :=
  mkWorld (storage w) f (timers w) (timerSeq w) (events w) (storageFailures w).

Definition set_timers (t : list nat) (w : World) : World :=
  mkWorld (storage w) (faults w) t (timerSeq w) (events w) (storageFailures w).

Definition log_event (e : Event) (w : World) : World :=
  mkWorld (storage w) (faults w) (timers w) (timerSeq w) (events w ++ [e])
          (storageFailures w).

Definition count_failure (w : World) : World :=
  mkWorld (storage w) (faults w) (timers w) (timerSeq w) (events w)
          (S (storageFailures w)).

Definition noFaults : StorageOp -> bool := fun _ => false.
Definition allFaults : StorageOp -> bool := fun _ => true.

(** ** The instance *)

Record ActiveSessionManager : Type := mkManager {
  sessionId : string;
  storageKey : string;
  intervalId : option nat;
  onConflict : Callback;
  isActiveSession : bool
}.

Definition set_intervalId (i : option nat) (a : ActiveSessionManager) :=
  mkManager (sessionId a) (storageKey a) i (onConflict a) (isActiveSession a).

Definition set_isActiveSession (b : bool) (a : ActiveSessionManager) :=
  mkManager (sessionId a) (storageKey a) (intervalId a) (onConflict a) b.

(** A method runs against its receiver and the environment. *)
Record Ctx : Type := mkCtx {
  this : ActiveSessionManager;
  world : World
}.

Definition on_world (f : World -> World) (c : Ctx) : Ctx :=
  mkCtx (this c) (f (world c)).

Definition on_this (f : ActiveSessionManager -> ActiveSessionManager)
           (c : Ctx) : Ctx :=
  mkCtx (f (this c)) (world c).

(** ** A state-and-exception monad

    [Throw] is a JavaScript exception; the state reached before the throw is
    kept.  [OutOfFuel] is the outcome of a loop that was not given enough
    iterations; no [try] catches it. *)

Inductive Result (A : Type) : Type :=
| Ok (a : A)
| Throw (e : string)
| OutOfFuel.
Arguments Ok {A} a.
Arguments Throw {A} e.
Arguments OutOfFuel {A}.

Definition M (A : Type) : Type := Ctx -> Result A * Ctx.

Definition ret {A} (a : A) : M A := fun c => (Ok a, c).

Definition bind {A B} (m : M A) (f : A -> M B) : M B :=
  fun c =>
    match m c with
    | (Ok a, c') => f a c'
    | (Throw e, c') => (Throw e, c')
    | (OutOfFuel, c') => (OutOfFuel, c')
    end.

Definition throw {A} (e : string) : M A := fun c => (Throw e, c).

Definition try_catch {A} (m : M A) (handler : string -> M A) : M A :=
  fun c =>
    match m c with
    | (Throw e, c') => handler e c'
    | r => r
    end.

Definition get : M Ctx := fun c => (Ok c, c).
Definition modify (f : Ctx -> Ctx) : M unit := fun c => (Ok tt, f c).

Declare Scope js_scope.
Delimit Scope js_scope with js.
Notation "x <- m ;; k" := (bind m (fun x => k))
  (at level 100, m at next level, right associativity) : js_scope.
Notation "m ;; k" := (bind m (fun _ => k))
  (at level 100, right associativity) : js_scope.
Local Open Scope js_scope.

Definition when (b : bool) (m : M unit) : M unit :=
  if b then m else ret tt.

(** ** Browser primitives *)

(** A storage operation: throws when the environment says so, and otherwise
    reads or updates the storage area. *)
Definition storageOp {A} (op : StorageOp) (read : Storage -> A)
           (write : Storage -> Storage) : M A :=
  fun c =>
    if faults (world c) op
    then (Throw "StorageError", on_world count_failure c)
    else (Ok (read (storage (world c))),
          on_world (set_storage (write (storage (world c)))) c).

Definition localStorage_length : M nat :=
  storageOp OpLength (@length _) (fun s => s).

Definition localStorage_key (i : nat) : M (option string) :=
  storageOp OpKey (ls_key i) (fun s => s).

Definition localStorage_getItem (k : string) : M (option string) :=
  storageOp OpGetItem (ls_getItem k) (fun s => s).

Definition localStorage_setItem (k v : string) : M unit :=
  storageOp OpSetItem (fun _ => tt) (ls_setItem k v).

Definition localStorage_removeItem (k : string) : M unit :=
  storageOp OpRemoveItem (fun _ => tt) (ls_removeItem k).

Definition console_warn (msg : string) : M unit :=
  modify (on_world (log_event (Warn msg))).

(** [window.setInterval]: a fresh, non-zero handle. *)
Definition window_setInterval : M nat :=
  fun c =>
    let w := world c in
    let h := S (timerSeq w) in
    (Ok h, mkCtx (this c)
             (mkWorld (storage w) (faults w) (h :: timers w) h (events w)
                      (storageFailures w))).

Definition clearInterval (h : nat) : M unit :=
  modify (on_world (fun w =>
    set_timers (filter (fun h' => negb (Nat.eqb h h')) (timers w)) w)).

(** Calling the stored callback. *)
Definition call_onConflict : M unit :=
  c <- get ;;
  let cb := onConflict (this c) in
  modify (on_world (log_event (ConflictCalled (cb_id cb)))) ;;
  if cb_throws cb then throw "CallbackError" else ret tt.

(** JavaScript truthiness of [this.intervalId]. *)
Definition truthy_handle (i : option nat) : option nat :=
  match i with
  | Some (S n) => Some (S n)
  | _ => None
  end.

(** [if (this.intervalId) clearInterval(this.intervalId)] *)
Definition clear_own_interval : M unit :=
  c <- get ;;
  match truthy_handle (intervalId (this c)) with
  | Some h => clearInterval h
  | None => ret tt
  end.

(** ** The methods of the class *)

(** One turn of [for (let i = 0; i < localStorage.length; i++)]: the length
    is re-read at every test, and the index advances whether or not the
    entry at [i] was removed. *)
Fixpoint claimSession_loop (fuel : nat) (i : nat) : M unit :=
  match fuel with
  | O => fun c => (OutOfFuel, c)
  | S fuel' =>
      len <- localStorage_length ;;
      if Nat.ltb i len then
        key <- localStorage_key i ;;
        match key with
        | Some k =>
            when (negb (String.eqb k "") && isClaimKey k)
                 (localStorage_removeItem k)
        | None => ret tt
        end ;;
        claimSession_loop fuel' (S i)
      else ret tt
  end.

Definition claimSession : M unit :=
  try_catch
    (c <- get ;;
     claimSession_loop (S (length (storage (world c)))) 0 ;;
     localStorage_setItem (storageKey (this c)) SENTINEL ;;
     modify (on_this (set_isActiveSession true)))
    (fun _ => console_warn CLAIM_WARNING).

(** The [beforeunload] listener. *)
Definition onBeforeUnload : M unit :=
  c <- get ;;
  when (isActiveSession (this c))
       (try_catch (localStorage_removeItem (storageKey (this c)))
                  (fun _ => ret tt)).

(** [currentClaim === 'active'], for the [string | null] that [getItem]
    returns. *)
Definition isSentinel (v : option string) : bool :=
  match v with
  | Some x => String.eqb x SENTINEL
  | None => false
  end.

(** The body of the interval callback. *)
Definition periodicCheck : M unit :=
  c <- get ;;
  if negb (isActiveSession (this c)) then ret tt
  else
    try_catch
      (currentClaim <- localStorage_getItem (storageKey (this c)) ;;
       when (negb (isSentinel currentClaim))
            (modify (on_this (set_isActiveSession false)) ;;
             call_onConflict ;;
             clear_own_interval))
      (fun _ => console_warn CHECK_WARNING).

(** Registering the listener has no effect of its own in the model; the
    timer is started and its handle stored. *)
Definition setupListeners : M unit :=
  h <- window_setInterval ;;
  modify (on_this (set_intervalId (Some h))).

Definition isCurrentActiveSession : M bool :=
  c <- get ;;
  ret (isActiveSession (this c)).

Definition releaseSession : M unit :=
  clear_own_interval ;;
  c <- get ;;
  when (isActiveSession (this c))
       (try_catch (localStorage_removeItem (storageKey (this c)))
                  (fun _ => ret tt)).

(** The object before the constructor body runs: the field initialiser has
    set [isActiveSession]; the session identifier comes from the clock and
    the random source, so it is an input here. *)
Definition newObject (sid : string) (cb : Callback) : ActiveSessionManager :=
  mkManager sid (claimKeyOf sid) None cb true.

Definition constructorBody : M unit :=
  claimSession ;;
  setupListeners.

(** [new ActiveSessionManager(cb)] in environment [w]. *)
Definition construct (sid : string) (cb : Callback) (w : World)
  : Result unit * Ctx :=
  constructorBody (mkCtx (newObject sid cb) w).


(** ** Life of an instance

    What can happen to an instance after its construction: its public
    methods, a timer tick, the page's [beforeunload], and the rest of the
    world (other tabs rewriting the storage area, storage becoming
    unavailable or available again). *)

Inductive Step : Type :=
| CallIsCurrentActiveSession
| CallReleaseSession
| Tick
| BeforeUnload
| EnvStorage (f : Storage -> Storage)
| EnvFaults (f : StorageOp -> bool).

Definition run_step (st : Step) : M unit :=
  match st with
  | CallIsCurrentActiveSession => _ <- isCurrentActiveSession ;; ret tt
  | CallReleaseSession => releaseSession
  | Tick => periodicCheck
  | BeforeUnload => onBeforeUnload
  | EnvStorage f =>
      modify (on_world (fun w => set_storage (f (storage w)) w))
  | EnvFaults f => modify (on_world (set_faults f))
  end.

(** Every step runs, whatever the outcome of the previous ones; the
    outcomes are collected in order. *)
Fixpoint run_steps (l : list Step) (c : Ctx) : list (Result unit) * Ctx :=
  match l with
  | [] => ([], c)
  | st :: l' =>
      let (r, c1) := run_step st c in
      let (rs, c2) := run_steps l' c1 in
      (r :: rs, c2)
  end.

(** Instances constructed one after the other in the same environment. *)
Fixpoint constructSeq (args : list (string * Callback)) (w : World)
  : list ActiveSessionManager * World :=
  match args with
  | [] => ([], w)
  | (sid, cb) :: rest =>
      let c := snd (construct sid cb w) in
      let (insts, w') := constructSeq rest (world c) in
      (this c :: insts, w')
  end.

(** How often the callback [cb] has been called in a trace. *)
Fixpoint count_called (cb : nat) (evs : list Event) : nat :=
  match evs with
  | [] => 0
  | ConflictCalled cb' :: evs' =>
      (if Nat.eqb cb cb' then 1 else 0) + count_called cb evs'
  | Warn _ :: evs' => count_called cb evs'
  end.

Fixpoint count_warnings (evs : list Event) : nat :=
  match evs with
  | [] => 0
  | Warn _ :: evs' => S (count_warnings evs')
  | ConflictCalled _ :: evs' => count_warnings evs'
  end.

(** The sweep of [claimSession] on the storage area alone, for an
    environment in which no operation throws. *)
Fixpoint sweep (fuel : nat) (i : nat) (s : Storage) : Storage :=
  match fuel with
  | O => s
  | S fuel' =>
      if Nat.ltb i (length s) then
        match ls_key i s with
        | Some k =>
            if negb (String.eqb k "") && isClaimKey k
            then sweep fuel' (S i) (ls_removeItem k s)
            else sweep fuel' (S i) s
        | None => sweep fuel' (S i) s
        end
      else s
  end.

(** [s'] has no key that [s] lacks. *)
Definition shrinks (s' s : Storage) : Prop :=
  forall k, ls_getItem k s = None -> ls_getItem k s' = None.

Definition available (w : World) : Prop := forall op, faults w op = false.
Definition unavailable (w : World) : Prop := forall op, faults w op = true.

(** The timers left once the evicting check is over: the instance's own
    timer is cleared unless the callback threw first. *)
Definition timers_after_eviction (a : ActiveSessionManager) (t : list nat)
  : list nat :=
  if cb_throws (onConflict a) then t
  else match truthy_handle (intervalId a) with
       | Some h => filter (fun h' => negb (Nat.eqb h h')) t
       | None => t
       end.

(** How often the instance's own callback has been called so far. *)
Definition conflicts (c : Ctx) : nat :=
  count_called (cb_id (onConflict (this c))) (events (world c)).

(** ** Sample environments and instances *)

Definition emptyWorld : World := mkWorld [] noFaults [] 0 [] 0.

Definition brokenWorld : World := mkWorld [] allFaults [] 0 [] 0.

Definition quietCallback : Callback := mkCallback 7 false.

(** A store that accepts everything but writes. *)
Definition writeFails : StorageOp -> bool :=
  fun op => match op with OpSetItem => true | _ => false end.

(** An instance that has been evicted, with its timer still registered. *)
Definition evictedInstance : Ctx :=
  mkCtx (mkManager "a" (claimKeyOf "a") (Some 1) quietCallback false)
        (mkWorld [(claimKeyOf "b", "active")] noFaults [1; 2] 2
                 [ConflictCalled 7] 0).

(** An active instance whose claim is in store, next to a foreign key. *)
Definition activeInstance : Ctx :=
  mkCtx (mkManager "a" (claimKeyOf "a") (Some 1) quietCallback true)
        (mkWorld [("projects", "[]"); (claimKeyOf "a", "active")]
                 noFaults [1] 1 [] 0).

(** ** The storage helpers of the application

    [loadFromLocalStorage] and [saveToLocalStorage] run against the same
    storage area.  [JSON.parse] and [JSON.stringify] are taken as given: the
    first may throw a [SyntaxError] ([None]), the second a [TypeError]
    ([None]); a value that [JSON.stringify] maps to [undefined] reaches
    [setItem] as the text [undefined]. *)

Definition LOCAL_STORAGE_PROJECTS : string := "semanticAppProjects".
Definition LOCAL_STORAGE_SEARCH_INTENTIONS_PREFIX : string :=
  "semanticAppSearchIntentions_".
Definition LOCAL_STORAGE_USER_PROFILE : string := "userProfileData".
Definition LOCAL_STORAGE_COLLABORATORS : string := "semanticAppCollaborators".
Definition LOCAL_STORAGE_COMPETITIVE_ANALYSES : string :=
  "competitiveAnalyses_v2".

(** [`Error loading '${key}' from localStorage:`] *)
Definition loadWarning (key : string) : string :=
  ("Error loading '" ++ key ++ "' from localStorage:")%string.

(** [`Error saving '${key}' to localStorage:`] *)
Definition saveError (key : string) : string :=
  ("Error saving '" ++ key ++ "' to localStorage:")%string.

Definition loadFromLocalStorage {T : Type} (JSON_parse : string -> option T)
           (key : string) (defaultValue : T) : M T :=
  try_catch
    (storedValue <- localStorage_getItem key ;;
     match storedValue with
     | Some v =>
         if String.eqb v "" then ret defaultValue
         else match JSON_parse v with
              | Some x => ret x
              | None => throw "SyntaxError"
              end
     | None => ret defaultValue
     end)
    (fun _ => console_warn (loadWarning key) ;; ret defaultValue).

(** [console.error] has its own log, threaded next to the context. *)
Definition saveToLocalStorage {T : Type} (JSON_stringify : T -> option string)
           (key : string) (value : T) (c : Ctx) (errors : list string)
  : Result unit * Ctx * list string :=
  match
    (match JSON_stringify value with
     | Some text => localStorage_setItem key text
     | None => throw "TypeError"
     end) c
  with
  | (Throw _, c') => (Ok tt, c', errors ++ [saveError key])
  | (r, c') => (r, c', errors)
  end.

(** The keys under which the application keeps its own data (the constants
    above; search intentions are kept per project identifier). *)
Inductive appKey : string -> Prop :=
| appKey_projects : appKey LOCAL_STORAGE_PROJECTS
| appKey_profile : appKey LOCAL_STORAGE_USER_PROFILE
| appKey_collaborators : appKey LOCAL_STORAGE_COLLABORATORS
| appKey_analyses : appKey LOCAL_STORAGE_COMPETITIVE_ANALYSES
| appKey_intentions (projectId : string) :
    appKey (LOCAL_STORAGE_SEARCH_INTENTIONS_PREFIX ++ projectId)%string.

(** A one-value codec to instantiate the helpers with: the boolean [true]
    and its JSON text. *)
Definition sampleParse (text : string) : option bool :=
  if String.eqb text "true" then Some true else None.

Definition sampleStringify (b : bool) : option string :=
  if b then Some "true" else None.

(** ** Text as the application handles it

    Where the code looks inside a string ([trim], regular expressions), the
    string is its sequence of UTF-16 code units. *)

Definition JSString : Type := list N.

(** A literal of the source made of ASCII characters. *)
Definition ofAscii (s : string) : JSString :=
  map N_of_ascii (list_ascii_of_string s).

Definition jsstring_eqb (a b : JSString) : bool :=
  if list_eq_dec N.eq_dec a b then true else false.

(** The code units that [trim] strips and that [\s] matches: the
    ECMAScript WhiteSpace and LineTerminator code points. *)
Definition isWhiteSpace (c : N) : bool :=
  existsb (N.eqb c)
    [9; 10; 11; 12; 13; 32; 160; 5760; 8232; 8233; 8239; 8287; 12288; 65279]%N
  || (N.leb 8192 c && N.leb c 8202).

Fixpoint trimStart (s : JSString) : JSString :=
  match s with
  | c :: s' => if isWhiteSpace c then trimStart s' else s
  | [] => []
  end.

Definition trimEnd (s : JSString) : JSString := rev (trimStart (rev s)).

Definition trim (s : JSString) : JSString := trimEnd (trimStart s).

Fixpoint startsWith (p s : JSString) : bool :=
  match p, s with
  | [], _ => true
  | a :: p', b :: s' => N.eqb a b && startsWith p' s'
  | _ :: _, [] => false
  end.

(** [s.includes(p)] *)
Fixpoint includes (p s : JSString) : bool :=
  startsWith p s ||
  match s with
  | [] => false
  | _ :: s' => includes p s'
  end.

(** *** Regular expressions

    The fragment the source uses, matched the way the language defines it:
    by backtracking, each construct handing the rest of the input and the
    capture of group 1 to its continuation.  Quantifiers apply to classes
    of single code units. *)

Inductive Regex : Type :=
| RClass (p : N -> bool)
| RSeq (r1 r2 : Regex)
| ROpt (r : Regex)
| RStar (p : N -> bool)
| RPlus (p : N -> bool)
| RLazyStar (p : N -> bool)
| RGroup (r : Regex).

Section Matcher.

Context {X : Type}.

(** Greedy [p*]: as many code units as possible first. *)
Fixpoint starGreedy (p : N -> bool) (s : JSString)
         (k : JSString -> option X) : option X :=
  match s with
  | c :: s' =>
      if p c then
        match starGreedy p s' k with
        | Some x => Some x
        | None => k s
        end
      else k s
  | [] => k []
  end.

(** Lazy [p*?]: as few code units as possible first. *)
Fixpoint starLazy (p : N -> bool) (s : JSString)
         (k : JSString -> option X) : option X :=
  match k s with
  | Some x => Some x
  | None =>
      match s with
      | c :: s' => if p c then starLazy p s' k else None
      | [] => None
      end
  end.

Fixpoint rmatch (r : Regex) (s : JSString) (cap : option JSString)
         (k : JSString -> option JSString -> option X) : option X :=
  match r with
  | RClass p =>
      match s with
      | c :: s' => if p c then k s' cap else None
      | [] => None
      end
  | RSeq r1 r2 => rmatch r1 s cap (fun s' cap' => rmatch r2 s' cap' k)
  | ROpt r1 =>
      match rmatch r1 s cap k with
      | Some x => Some x
      | None => k s cap
      end
  | RStar p => starGreedy p s (fun s' => k s' cap)
  | RPlus p =>
      match s with
      | c :: s' => if p c then starGreedy p s' (fun s'' => k s'' cap) else None
      | [] => None
      end
  | RLazyStar p => starLazy p s (fun s' => k s' cap)
  | RGroup r1 =>
      rmatch r1 s cap
        (fun s' _ => k s' (Some (firstn (length s - length s') s)))
  end.

End Matcher.

(** The leftmost match of [r] in [s]: the capture of group 1 ([None] inside
    when the group took no part), or [None] when nothing matches. *)
Fixpoint regexExec (r : Regex) (s : JSString) : option (option JSString) :=
  match rmatch r s None (fun _ cap => Some cap) with
  | Some cap => Some cap
  | None =>
      match s with
      | [] => None
      | _ :: s' => regexExec r s'
      end
  end.

(** [regex.test(s)] *)
Definition regexTest (r : Regex) (s : JSString) : bool :=
  match regexExec r s with
  | Some _ => true
  | None => false
  end.

(** A literal text inside a regular expression. *)
Fixpoint RLit (first : N) (others : JSString) : Regex :=
  match others with
  | [] => RClass (N.eqb first)
  | c :: rest => RSeq (RClass (N.eqb first)) (RLit c rest)
  end.

Definition anyUnit : N -> bool := fun _ => true.
Definition nonSpace : N -> bool := fun c => negb (isWhiteSpace c).

Definition BACKTICK : N := 96%N.
Definition FENCE : JSString := [BACKTICK; BACKTICK; BACKTICK].

(** [/```(?:json)?\s*([\s\S]*?)\s*```/] *)
Definition FENCED_BLOCK : Regex :=
  RSeq (RLit BACKTICK [BACKTICK; BACKTICK])
    (RSeq (ROpt (RLit 106 [115; 111; 110]%N))
       (RSeq (RStar isWhiteSpace)
          (RSeq (RGroup (RLazyStar anyUnit))
             (RSeq (RStar isWhiteSpace)
                (RLit BACKTICK [BACKTICK; BACKTICK]))))).

(** [/\S+@\S+\.\S+/] *)
Definition EMAIL_SHAPE : Regex :=
  RSeq (RPlus nonSpace)
    (RSeq (RClass (N.eqb 64))
       (RSeq (RPlus nonSpace)
          (RSeq (RClass (N.eqb 46)) (RPlus nonSpace)))).

(** [extractJsonFromResponse]; [JSON.parse] is given, [None] being its
    [SyntaxError]. *)
Definition extractJsonFromResponse {J : Type}
           (JSON_parse : JSString -> option J) (responseText : JSString)
  : Result J :=
  let cleanedText := trim responseText in
  let jsonMatch := regexExec FENCED_BLOCK cleanedText in
  let cleanedText' :=
    match jsonMatch with
    | Some (Some (c :: group)) => c :: group
    | _ => cleanedText
    end in
  match JSON_parse cleanedText' with
  | Some j => Ok j
  | None => Throw "SyntaxError"
  end.

(** ** Page state

    What a handler can reach besides the state of its component: the
    storage context, the [console.error] log and the alerts shown. *)

Record Browser : Type := mkBrowser {
  b_ctx : Ctx;
  b_errors : list string;
  b_alerts : list JSString
}.

Definition saveInBrowser {T : Type} (JSON_stringify : T -> option string)
           (key : string) (value : T) (b : Browser) : Browser :=
  let saved := saveToLocalStorage JSON_stringify key value (b_ctx b) (b_errors b) in
  mkBrowser (snd (fst saved)) (snd saved) (b_alerts b).

Definition window_alert (msg : JSString) (b : Browser) : Browser :=
  mkBrowser (b_ctx b) (b_errors b) (b_alerts b ++ [msg]).

(** *** The sortable-table hook: [requestSort] and [getSortClassFor] *)

Inductive SortDirection : Type := ascending | descending.

Record SortConfig : Type := mkSortConfig {
  key : string;
  direction : SortDirection
}.

Definition requestSort (k : string) (sortConfig : option SortConfig)
  : option SortConfig :=
  let direction' :=
    match sortConfig with
    | Some cfg =>
        match direction cfg with
        | ascending => if String.eqb (key cfg) k then descending else ascending
        | descending => ascending
        end
    | None => ascending
    end in
  Some (mkSortConfig k direction').

Definition directionText (d : SortDirection) : string :=
  match d with
  | ascending => "ascending"
  | descending => "descending"
  end.

Definition getSortClassFor (k : string) (sortConfig : option SortConfig)
  : string :=
  match sortConfig with
  | None => ""
  | Some cfg => if String.eqb (key cfg) k then directionText (direction cfg) else ""
  end.

(** *** Collaborators (the settings page) *)

Module Collaborator.
Record t : Type := mk {
  id : JSString;
  email : JSString;
  invitationDate : JSString;
  creditsUsedMock : option N;
  lastActivityMock : option JSString
}.
End Collaborator.

Definition MAX_COLLABORATORS : nat := 5.

Record SettingsState : Type := mkSettingsState {
  collaborators : list Collaborator.t;
  newCollaboratorEmail : JSString;
  error : JSString
}.

Definition INVALID_EMAIL_MESSAGE : JSString :=
  ofAscii "Veuillez entrer une adresse email valide.".

(** [`Vous ne pouvez pas ajouter plus de ${MAX_COLLABORATORS}
    collaborateurs.`] *)
Definition TOO_MANY_MESSAGE : JSString :=
  ofAscii "Vous ne pouvez pas ajouter plus de 5 collaborateurs.".

(** The text ends in [déjà.]; the two accented letters are the code units
    233 and 224. *)
Definition DUPLICATE_MESSAGE : JSString :=
  ofAscii "Ce collaborateur existe d" ++ [233%N] ++ ofAscii "j" ++ [224%N]
    ++ ofAscii ".".

Definition setError (msg : JSString) (st : SettingsState) : SettingsState :=
  mkSettingsState (collaborators st) (newCollaboratorEmail st) msg.

Definition saveCollaborators
           (JSON_stringify : list Collaborator.t -> option string)
           (updatedCollaborators : list Collaborator.t)
           (st : SettingsState) (b : Browser) : SettingsState * Browser :=
  (mkSettingsState updatedCollaborators (newCollaboratorEmail st) (error st),
   saveInBrowser JSON_stringify LOCAL_STORAGE_COLLABORATORS
     updatedCollaborators b).

(** [nowText] is [Date.now()] in decimal; [isoNow1] and [isoNow2] are the
    two readings of [new Date().toISOString()]. *)
Definition handleAddCollaborator
           (JSON_stringify : list Collaborator.t -> option string)
           (nowText isoNow1 isoNow2 : JSString)
           (st : SettingsState) (b : Browser) : SettingsState * Browser :=
  let entered := newCollaboratorEmail st in
  if jsstring_eqb (trim entered) [] || negb (regexTest EMAIL_SHAPE entered)
  then (setError INVALID_EMAIL_MESSAGE st, b)
  else if Nat.leb MAX_COLLABORATORS (length (collaborators st))
  then (setError TOO_MANY_MESSAGE st, b)
  else if existsb (fun c => jsstring_eqb (Collaborator.email c) (trim entered))
                  (collaborators st)
  then (setError DUPLICATE_MESSAGE st, b)
  else
    let newCollaborator :=
      Collaborator.mk (ofAscii "collab_" ++ nowText) (trim entered) isoNow1
                      (Some 0%N) (Some isoNow2) in
    let (st', b') :=
      saveCollaborators JSON_stringify (collaborators st ++ [newCollaborator])
                        st b in
    (mkSettingsState (collaborators st') [] [], b').

(** [confirmed] is the answer given to [window.confirm]. *)
Definition handleDeleteCollaborator
           (JSON_stringify : list Collaborator.t -> option string)
           (confirmed : bool) (collaboratorId : JSString)
           (st : SettingsState) (b : Browser) : SettingsState * Browser :=
  if confirmed then
    saveCollaborators JSON_stringify
      (filter (fun c => negb (jsstring_eqb (Collaborator.id c) collaboratorId))
              (collaborators st))
      st b
  else (st, b).

(** *** Projects (the projects page) *)

Inductive CMS : Type := woocommerce | shopify | prestashop | bigcommerce | other.

Module Project.
Record t : Type := mk {
  id : JSString;
  name : JSString;
  url : JSString;
  cms : option CMS;
  creationDate : JSString;
  gscConnected : option bool;
  gaConnected : option bool
}.
End Project.

Inductive ConnectionType : Type := gsc | ga.

(** The form's CMS choice is [None] for the empty choice. *)
Record ProjectsState : Type := mkProjectsState {
  projects : list Project.t;
  isModalOpen : bool;
  projectName : JSString;
  projectUrl : JSString;
  projectCms : option CMS;
  editingProject : option Project.t;
  isFormDirty : bool
}.

Definition setProjects (ps : list Project.t) (st : ProjectsState) :=
  mkProjectsState ps (isModalOpen st) (projectName st) (projectUrl st)
                  (projectCms st) (editingProject st) (isFormDirty st).

Definition setIsModalOpen (o : bool) (st : ProjectsState) :=
  mkProjectsState (projects st) o (projectName st) (projectUrl st)
                  (projectCms st) (editingProject st) (isFormDirty st).

Definition saveProjects (JSON_stringify : list Project.t -> option string)
           (updatedProjects : list Project.t)
           (st : ProjectsState) (b : Browser) : ProjectsState * Browser :=
  (setProjects updatedProjects st,
   saveInBrowser JSON_stringify LOCAL_STORAGE_PROJECTS updatedProjects b).

Definition NAME_REQUIRED_MESSAGE : JSString :=
  ofAscii "Le nom du projet est requis.".

(** JavaScript truthiness of an optional boolean field. *)
Definition truthy (o : option bool) : bool :=
  match o with
  | Some true => true
  | _ => false
  end.

Definition handleSaveProject
           (JSON_stringify : list Project.t -> option string)
           (nowText isoNow : JSString)
           (st : ProjectsState) (b : Browser) : ProjectsState * Browser :=
  if jsstring_eqb (trim (projectName st)) []
  then (st, window_alert NAME_REQUIRED_MESSAGE b)
  else
    let (st', b') :=
      match editingProject st with
      | Some editing =>
          saveProjects JSON_stringify
            (map (fun p =>
                    if jsstring_eqb (Project.id p) (Project.id editing)
                    then Project.mk (Project.id p) (projectName st)
                           (projectUrl st) (projectCms st)
                           (Project.creationDate p) (Project.gscConnected p)
                           (Project.gaConnected p)
                    else p)
                 (projects st))
            st b
      | None =>
          saveProjects JSON_stringify
            (projects st
               ++ [Project.mk (ofAscii "proj_" ++ nowText) (projectName st)
                     (projectUrl st) (projectCms st) isoNow
                     (Some false) (Some false)])
            st b
      end in
    (setIsModalOpen false st', b').

Definition handleDeleteProject
           (JSON_stringify : list Project.t -> option string)
           (confirmed : bool) (projectId : JSString)
           (st : ProjectsState) (b : Browser) : ProjectsState * Browser :=
  if confirmed then
    saveProjects JSON_stringify
      (filter (fun p => negb (jsstring_eqb (Project.id p) projectId))
              (projects st))
      st b
  else (st, b).

Definition toggleConnection (projectId : JSString) (type : ConnectionType)
           (p : Project.t) : Project.t :=
  if jsstring_eqb (Project.id p) projectId then
    match type with
    | gsc =>
        Project.mk (Project.id p) (Project.name p) (Project.url p)
          (Project.cms p) (Project.creationDate p)
          (Some (negb (truthy (Project.gscConnected p))))
          (Project.gaConnected p)
    | ga =>
        Project.mk (Project.id p) (Project.name p) (Project.url p)
          (Project.cms p) (Project.creationDate p)
          (Project.gscConnected p)
          (Some (negb (truthy (Project.gaConnected p))))
    end
  else p.

Definition handleToggleConnection
           (JSON_stringify : list Project.t -> option string)
           (projectId : JSString) (type : ConnectionType)
           (st : ProjectsState) (b : Browser) : ProjectsState * Browser :=
  saveProjects JSON_stringify
    (map (toggleConnection projectId type) (projects st)) st b.

(** What the user can do to the project list from the page. *)
Inductive ProjectsAction : Type :=
| SaveProject (nowText isoNow : JSString)
| DeleteProject (confirmed : bool) (projectId : JSString)
| ToggleConnection (projectId : JSString) (type : ConnectionType).

Definition runProjectsAction
           (JSON_stringify : list Project.t -> option string)
           (action : ProjectsAction) (st : ProjectsState) (b : Browser)
  : ProjectsState * Browser :=
  match action with
  | SaveProject nowText isoNow =>
      handleSaveProject JSON_stringify nowText isoNow st b
  | DeleteProject confirmed projectId =>
      handleDeleteProject JSON_stringify confirmed projectId st b
  | ToggleConnection projectId type =>
      handleToggleConnection JSON_stringify projectId type st b
  end.

(** The page shows what the store holds: loading the project list gives
    the list in the component's state. *)
Definition projectsInSync (JSON_parse : string -> option (list Project.t))
           (st : ProjectsState) (b : Browser) : Prop :=
  fst (loadFromLocalStorage JSON_parse LOCAL_STORAGE_PROJECTS [] (b_ctx b))
  = Ok (projects st).

(** What of a project the page shows and edits, the connections by their
    truthiness. *)
Definition projectView (p : Project.t)
  : JSString * JSString * JSString * option CMS * JSString * bool * bool :=
  (Project.id p, Project.name p, Project.url p, Project.cms p,
   Project.creationDate p, truthy (Project.gscConnected p),
   truthy (Project.gaConnected p)).

(** Two projects, and the page with its form open on the first. *)
Definition sampleProjects : list Project.t :=
  [Project.mk (ofAscii "proj_1") (ofAscii "Shop") (ofAscii "https://a.example")
     (Some shopify) (ofAscii "2024-01-01") None (Some true);
   Project.mk (ofAscii "proj_2") (ofAscii "Blog") (ofAscii "https://b.example")
     None (ofAscii "2024-02-01") (Some false) (Some false)].

Definition sampleProjectsState : ProjectsState :=
  mkProjectsState sampleProjects true (ofAscii "Boutique")
    (ofAscii "https://a.example") (Some woocommerce)
    (hd_error sampleProjects) true.

(** *** The profile effect of the application shell *)

Record UserProfileData : Type := mkUserProfileData {
  firstName : JSString;
  lastName : JSString;
  profileEmail : JSString;
  language : JSString;
  stripeCustomerId : option JSString
}.

Definition mockUserEmail : JSString := ofAscii "user@example.com".

Definition defaultProfile : UserProfileData :=
  mkUserProfileData (ofAscii "Utilisateur") (ofAscii "Principal")
                    mockUserEmail (ofAscii "fr") None.

(** The effect that runs when the shell mounts.  The stored value is read
    as [UserProfileData | null]: [JSON_parse] gives [Some None] for a text
    that parses to [null].  The result is the profile handed to
    [setUserProfile]. *)
Definition loadProfileEffect
           (JSON_parse : string -> option (option UserProfileData))
           (JSON_stringify : UserProfileData -> option string)
           (b : Browser) : UserProfileData * Browser :=
  let loaded :=
    loadFromLocalStorage JSON_parse LOCAL_STORAGE_USER_PROFILE None (b_ctx b) in
  let b1 := mkBrowser (snd loaded) (b_errors b) (b_alerts b) in
  match fst loaded with
  | Ok (Some profile) => (profile, b1)
  | _ =>
      (defaultProfile,
       saveInBrowser JSON_stringify LOCAL_STORAGE_USER_PROFILE defaultProfile b1)
  end.

(** [handleProfileUpdate] *)
Definition handleProfileUpdate
           (JSON_stringify : UserProfileData -> option string)
           (updatedProfile : UserProfileData) (b : Browser)
  : UserProfileData * Browser :=
  (updatedProfile,
   saveInBrowser JSON_stringify LOCAL_STORAGE_USER_PROFILE updatedProfile b).

(** *** Product addresses and credits (the product-sheet page) *)

(** [s.split(sep)] for a separator of one code unit. *)
Fixpoint splitOn (sep : N) (s : JSString) : list JSString :=
  match s with
  | [] => [[]]
  | c :: s' =>
      if N.eqb c sep then [] :: splitOn sep s'
      else match splitOn sep s' with
           | piece :: pieces => (c :: piece) :: pieces
           | [] => [[c]]
           end
  end.

Definition LINE_FEED : N := 10%N.

(** [productUrlsInput.split('\n').map(url => url.trim())
     .filter(url => url.length > 0 && url.startsWith('http')).slice(0, 20)] *)
Definition productUrls (productUrlsInput : JSString) : list JSString :=
  firstn 20
    (filter (fun url => Nat.ltb 0 (length url) && startsWith (ofAscii "http") url)
       (map trim (splitOn LINE_FEED productUrlsInput))).

Definition productCreditCost (productUrlsInput : JSString) : nat :=
  length (productUrls productUrlsInput) * 10.

(** *** Competitor addresses (the competitive-analysis page) *)

Definition addUrlInput (competitorUrls : list JSString) : list JSString :=
  if Nat.ltb (length competitorUrls) 4 then competitorUrls ++ [[]]
  else competitorUrls.

(** [competitorUrls.filter((_, i) => i !== index)] *)
Fixpoint removeAt (index : nat) (l : list JSString) : list JSString :=
  match l, index with
  | [], _ => []
  | _ :: l', O => l'
  | x :: l', S i => x :: removeAt i l'
  end.

Definition removeUrlInput (index : nat) (competitorUrls : list JSString)
  : list JSString :=
  if Nat.ltb 1 (length competitorUrls) then removeAt index competitorUrls
  else competitorUrls.

Definition urlsToAnalyze (competitorUrls : list JSString) : list JSString :=
  filter (fun url =>
            negb (jsstring_eqb (trim url) [])
            && (startsWith (ofAscii "http://") url
                || startsWith (ofAscii "https://") url))
         competitorUrls.

Definition analysisCreditCost (competitorUrls : list JSString) : nat :=
  length (urlsToAnalyze competitorUrls) * 50.

(** *** The CSV export of generated descriptions *)



Definition QUOTE : N := 34%N.
Definition COMMA : N := 44%N.

(** The global [replace] of [escapeCsv]: every quotation mark is written
    twice. *)
Fixpoint doubleQuotes (field : JSString) : JSString :=
  match field with
  | [] => []
  | c :: rest =>
      if N.eqb c QUOTE then QUOTE :: QUOTE :: doubleQuotes rest
      else c :: doubleQuotes rest
  end.

Definition escapeCsv (field : JSString) : JSString :=
  QUOTE :: doubleQuotes field ++ [QUOTE].







(** A reader of quoted CSV fields as RFC 4180 defines them, to read back
    what the export writes (it is not part of the application): a quoted
    field ends at the first quote that is not doubled. *)
Fixpoint readQuoted (s acc : JSString) : option (JSString * JSString) :=
  match s with
  | [] => None
  | c :: s' =>
      if N.eqb c QUOTE then
        match s' with
        | c' :: s'' =>
            if N.eqb c' QUOTE then readQuoted s'' (QUOTE :: acc)
            else Some (rev acc, s')
        | [] => Some (rev acc, [])
        end
      else readQuoted s' (c :: acc)
  end.

Definition readQuotedField (s : JSString) : option (JSString * JSString) :=
  match s with
  | c :: s' => if N.eqb c QUOTE then readQuoted s' [] else None
  | [] => None
  end.



(** A browser around the sample instance, and a serialiser that accepts
    every list. *)
Definition sampleBrowser : Browser := mkBrowser activeInstance [] [].

Definition anyText {T : Type} (_ : T) : option string := Some "[...]".

(** A store that holds the sample projects under the projects key, with a
    codec that tells the sample list from the list in which the first
    project is connected to the search console. *)
Definition sampleProjectsStringify (ps : list Project.t) : option string :=
  match ps with
  | p :: _ => if truthy (Project.gscConnected p) then Some "after"
              else Some "before"
  | [] => Some "[]"
  end.

Definition sampleProjectsParse (text : string) : option (list Project.t) :=
  if String.eqb text "before" then Some sampleProjects
  else if String.eqb text "after"
       then Some (map (toggleConnection (ofAscii "proj_1") gsc) sampleProjects)
       else None.

Definition syncedBrowser : Browser :=
  mkBrowser
    (on_world (set_storage [(LOCAL_STORAGE_PROJECTS, "before");
                            (claimKeyOf "a", "active")]) activeInstance)
    [] [].

(** ** Facts about the storage area *)

Section StorageFacts.

Lemma prefix_app (p s : string) : String.prefix p (p ++ s)%string = true.
Proof.
  induction p as [|a p IH]; simpl.
  - destruct s; reflexivity.
  - destruct (Ascii.ascii_dec a a) as [_|n]; [exact IH | now destruct n].
Qed.

Lemma append_inj (p a b : string) : (p ++ a = p ++ b)%string -> a = b.
Proof.
  induction p as [|x p IH]; simpl; intros H; [exact H|].
  injection H as H. now apply IH.
Qed.

Lemma isClaimKey_claimKeyOf (sid : string) : isClaimKey (claimKeyOf sid) = true.
Proof. apply prefix_app. Qed.

Lemma claimKeyOf_inj (a b : string) : claimKeyOf a = claimKeyOf b -> a = b.
Proof. apply append_inj. Qed.

Lemma claim_guard (k : string) :
  negb (String.eqb k "") && isClaimKey k = isClaimKey k.
Proof. destruct k; reflexivity. Qed.

Lemma ls_getItem_None (k : string) (s : Storage) :
  ls_getItem k s = None <-> ~ In k (keys s).
Proof.
  induction s as [|[k' v] s IH]; simpl.
  - tauto.
  - destruct (String.eqb_spec k k') as [->|Hne].
    + split; [discriminate | intros H; exfalso; apply H; now left].
    + rewrite IH. split; [intros H [E|I]; [now subst | now apply H] | tauto].
Qed.

Lemma ls_getItem_setItem (k v : string) (s : Storage) :
  ls_getItem k (ls_setItem k v s) = Some v.
Proof.
  induction s as [|[k' v'] s IH]; simpl.
  - now rewrite String.eqb_refl.
  - destruct (String.eqb k k') eqn:E; simpl.
    + now rewrite String.eqb_refl.
    + now rewrite E.
Qed.

Lemma keys_removeItem (k : string) (s : Storage) :
  keys (ls_removeItem k s) = filter (fun k' => negb (String.eqb k k')) (keys s).
Proof.
  induction s as [|[k' v] s IH]; simpl; [reflexivity|].
  destruct (String.eqb k k'); simpl; now rewrite IH.
Qed.

Lemma ls_getItem_removeItem (k : string) (s : Storage) :
  ls_getItem k (ls_removeItem k s) = None.
Proof.
  apply ls_getItem_None. rewrite keys_removeItem, filter_In.
  intros [_ H]. now rewrite String.eqb_refl in H.
Qed.

Lemma ls_removeItem_absent (k : string) (s : Storage) :
  ls_getItem k s = None -> ls_removeItem k s = s.
Proof.
  induction s as [|[k' v] s IH]; simpl; [reflexivity|].
  destruct (String.eqb k k'); [discriminate|].
  intros H. simpl. now rewrite IH.
Qed.

Lemma ls_removeItem_idem (k : string) (s : Storage) :
  ls_removeItem k (ls_removeItem k s) = ls_removeItem k s.
Proof. apply ls_removeItem_absent, ls_getItem_removeItem. Qed.

Lemma ls_getItem_removeItem_None (k k' : string) (s : Storage) :
  ls_getItem k s = None -> ls_getItem k (ls_removeItem k' s) = None.
Proof.
  rewrite !ls_getItem_None, keys_removeItem, filter_In. tauto.
Qed.

Lemma length_removeItem (k : string) (s : Storage) :
  length (ls_removeItem k s) <= length s.
Proof. apply filter_length_le. Qed.

Lemma claimKeys_removeItem (k : string) (s : Storage) :
  claimKeys (ls_removeItem k s)
  = filter (fun k' => negb (String.eqb k k')) (claimKeys s).
Proof.
  unfold claimKeys. rewrite keys_removeItem.
  induction (keys s) as [|x l IH]; simpl; [reflexivity|].
  destruct (String.eqb k x) eqn:E, (isClaimKey x) eqn:C; simpl;
    rewrite ?E, ?C, IH; reflexivity.
Qed.

(** With at most one claim key in store, removing a claim key that is
    there leaves none. *)
Lemma claimKeys_removeItem_single (k : string) (s : Storage) :
  length (claimKeys s) <= 1 -> isClaimKey k = true -> In k (keys s) ->
  claimKeys (ls_removeItem k s) = [].
Proof.
  intros Hlen Hk Hin. rewrite claimKeys_removeItem.
  assert (Hc : In k (claimKeys s)) by (apply filter_In; split; assumption).
  revert Hlen Hc.
  destruct (claimKeys s) as [|x [|y l]]; simpl; intros Hlen Hc; try lia.
  destruct Hc as [->|[]]. now rewrite String.eqb_refl.
Qed.

Lemma claimKeys_nil_notIn (k : string) (s : Storage) :
  claimKeys s = [] -> isClaimKey k = true -> ~ In k (keys s).
Proof.
  intros Hnil Hk Hin.
  assert (Hc : In k (claimKeys s)) by (apply filter_In; split; assumption).
  now rewrite Hnil in Hc.
Qed.

Lemma claimKeys_setItem_fresh (k v : string) (s : Storage) :
  claimKeys s = [] -> isClaimKey k = true ->
  claimKeys (ls_setItem k v s) = [k].
Proof.
  unfold claimKeys.
  induction s as [|[k' v'] s IH]; simpl; intros Hnil Hk.
  - now rewrite Hk.
  - destruct (isClaimKey k') eqn:C; [discriminate|].
    destruct (String.eqb_spec k k') as [->|Hne]; [congruence|].
    simpl. rewrite C. now apply IH.
Qed.

Lemma ls_key_Some (i : nat) (s : Storage) :
  i < length s -> exists k v, nth_error s i = Some (k, v) /\ ls_key i s = Some k.
Proof.
  intros Hi. unfold ls_key.
  destruct (nth_error s i) as [[k v]|] eqn:E.
  - exists k, v. split; reflexivity.
  - apply nth_error_None in E. lia.
Qed.

Lemma claimKeys_app (s t : Storage) :
  claimKeys (s ++ t) = claimKeys s ++ claimKeys t.
Proof. unfold claimKeys, keys. now rewrite map_app, filter_app. Qed.

Lemma firstn_succ (i : nat) (s : Storage) (kv : string * string) :
  nth_error s i = Some kv -> firstn (S i) s = firstn i s ++ [kv].
Proof.
  revert s. induction i as [|i IH]; intros [|x s]; simpl; try discriminate.
  - now intros [= ->].
  - intros H. now rewrite <- (IH s H).
Qed.

End StorageFacts.

(** ** The sweep of [claimSession] *)

Section Sweep.

Lemma sweep_no_claims (fuel i : nat) (s : Storage) :
  claimKeys s = [] -> sweep fuel i s = s.
Proof.
  revert i. induction fuel as [|fuel IH]; intros i Hnil; simpl; [reflexivity|].
  destruct (Nat.ltb_spec i (length s)) as [Hi|Hi]; [|reflexivity].
  destruct (ls_key_Some i s Hi) as (k & v & Hn & Hk).
  rewrite Hk, claim_guard.
  destruct (isClaimKey k) eqn:C; [|now apply IH].
  exfalso. apply (claimKeys_nil_notIn k s Hnil C).
  apply nth_error_In in Hn. apply (in_map fst) in Hn. exact Hn.
Qed.

(** When the store holds at most one claim key, the sweep removes it. *)
Lemma sweep_clears (fuel i : nat) (s : Storage) :
  length s - i < fuel ->
  length (claimKeys s) <= 1 ->
  claimKeys (firstn i s) = [] ->
  claimKeys (sweep fuel i s) = [].
Proof.
  revert i s. induction fuel as [|fuel IH]; intros i s Hfuel Hlen Hpre; [lia|].
  simpl.
  destruct (Nat.ltb_spec i (length s)) as [Hi|Hi].
  - destruct (ls_key_Some i s Hi) as (k & v & Hn & Hk).
    rewrite Hk, claim_guard.
    destruct (isClaimKey k) eqn:C.
    + assert (Hin : In k (keys s)).
      { apply nth_error_In in Hn. apply (in_map fst) in Hn. exact Hn. }
      pose proof (claimKeys_removeItem_single k s Hlen C Hin) as Hnil.
      now rewrite sweep_no_claims.
    + apply IH; [lia | exact Hlen |].
      rewrite (firstn_succ i s (k, v) Hn), claimKeys_app, Hpre.
      unfold claimKeys. simpl. now rewrite C.
  - now rewrite firstn_all2 in Hpre by lia.
Qed.

Lemma sweep_all_clears (s : Storage) :
  length (claimKeys s) <= 1 ->
  claimKeys (sweep (S (length s)) 0 s) = [].
Proof. intros H. apply sweep_clears; [lia | exact H | reflexivity]. Qed.

(** The sweep only removes entries. *)
Lemma sweep_absent (k : string) (fuel i : nat) (s : Storage) :
  ls_getItem k s = None -> ls_getItem k (sweep fuel i s) = None.
Proof.
  revert i s. induction fuel as [|fuel IH]; intros i s Hk; simpl; [exact Hk|].
  destruct (Nat.ltb i (length s)); [|exact Hk].
  destruct (ls_key i s) as [k'|]; [|now apply IH].
  destruct (negb (String.eqb k' "") && isClaimKey k'); [|now apply IH].
  apply IH. now apply ls_getItem_removeItem_None.
Qed.

End Sweep.

(** ** Running the methods *)

(** Unfolding of the monad, the primitives and the record accessors. *)
Ltac js_unfold :=
  cbv beta iota zeta delta
    [bind ret get modify throw try_catch when storageOp
     localStorage_length localStorage_key localStorage_getItem
     localStorage_setItem localStorage_removeItem console_warn
     window_setInterval clearInterval call_onConflict clear_own_interval
     on_world on_this set_storage set_faults set_timers log_event
     count_failure set_intervalId set_isActiveSession
     this world storage faults timers timerSeq events storageFailures
     sessionId storageKey intervalId onConflict isActiveSession
     cb_id cb_throws].

Ltac js_unfold_in H :=
  cbv beta iota zeta delta
    [bind ret get modify throw try_catch when storageOp
     localStorage_length localStorage_key localStorage_getItem
     localStorage_setItem localStorage_removeItem console_warn
     window_setInterval clearInterval call_onConflict clear_own_interval
     on_world on_this set_storage set_faults set_timers log_event
     count_failure set_intervalId set_isActiveSession
     this world storage faults timers timerSeq events storageFailures
     sessionId storageKey intervalId onConflict isActiveSession
     cb_id cb_throws] in H.

Section Methods.

Lemma claimSession_loop_available (fuel i : nat) (c : Ctx) :
  available (world c) ->
  length (storage (world c)) - i < fuel ->
  claimSession_loop fuel i c
  = (Ok tt, on_world (set_storage (sweep fuel i (storage (world c)))) c).
Proof.
  revert i c. induction fuel as [|fuel IH];
    intros i [a [s f t ts ev sf]] Hav Hfuel; simpl in Hfuel; [lia|].
  unfold available in Hav. simpl in Hav.
  simpl claimSession_loop. simpl sweep. js_unfold. rewrite !Hav.
  destruct (Nat.ltb_spec i (length s)) as [Hi|Hi]; [|reflexivity].
  rewrite Hav.
  destruct (ls_key i s) as [k|] eqn:Hk.
  - destruct (negb (String.eqb k "") && isClaimKey k) eqn:G.
    + rewrite Hav, IH; [reflexivity | exact Hav |].
      simpl. pose proof (length_removeItem k s). lia.
    + rewrite IH; [reflexivity | exact Hav | simpl; lia].
  - rewrite IH; [reflexivity | exact Hav | simpl; lia].
Qed.

(** Under any pattern of failures the loop ends, by running off the end of
    the store or by the first operation that throws; it touches nothing but
    the store, from which it only removes. *)
Lemma claimSession_loop_frame (fuel i : nat) (c : Ctx) :
  length (storage (world c)) - i < fuel ->
  exists r s' n,
    claimSession_loop fuel i c
    = (r, mkCtx (this c)
            (mkWorld s' (faults (world c)) (timers (world c))
                     (timerSeq (world c)) (events (world c))
                     (storageFailures (world c) + n)))
    /\ shrinks s' (storage (world c))
    /\ ((r = Ok tt /\ n = 0) \/ (exists e, r = Throw e /\ n = 1)).
Proof.
  revert i c. induction fuel as [|fuel IH];
    intros i [a [s f t ts ev sf]] Hfuel; simpl in Hfuel; [lia|].
  simpl claimSession_loop. js_unfold.
  destruct (f OpLength) eqn:FL.
  { exists (Throw "StorageError"), s, 1. rewrite Nat.add_1_r.
    repeat split; [intros k H; exact H | right; eauto]. }
  destruct (Nat.ltb_spec i (length s)) as [Hi|Hi].
  2:{ exists (Ok tt), s, 0. rewrite Nat.add_0_r.
      repeat split; [intros k H; exact H | left; auto]. }
  destruct (f OpKey) eqn:FK.
  { exists (Throw "StorageError"), s, 1. rewrite Nat.add_1_r.
    repeat split; [intros k H; exact H | right; eauto]. }
  assert (Hrec : forall s0, length s0 <= length s -> shrinks s0 s ->
    exists r s' n,
      claimSession_loop fuel (S i) (mkCtx a (mkWorld s0 f t ts ev sf))
      = (r, mkCtx a (mkWorld s' f t ts ev (sf + n)))
      /\ shrinks s' s
      /\ ((r = Ok tt /\ n = 0) \/ (exists e, r = Throw e /\ n = 1))).
  { intros s0 Hl Hs.
    destruct (IH (S i) (mkCtx a (mkWorld s0 f t ts ev sf)))
      as (r & s' & n & E & Hsh & Hr); [simpl; lia|].
    exists r, s', n. simpl in E, Hsh.
    repeat split; [exact E | intros k H; apply Hsh, Hs, H | exact Hr]. }
  destruct (ls_key i s) as [k|] eqn:Hk.
  - destruct (negb (String.eqb k "") && isClaimKey k) eqn:G.
    + destruct (f OpRemoveItem) eqn:FR.
      { exists (Throw "StorageError"), s, 1. rewrite Nat.add_1_r.
        repeat split; [intros k' H; exact H | right; eauto]. }
      apply Hrec; [apply length_removeItem|].
      intros k' H. now apply ls_getItem_removeItem_None.
    + apply Hrec; [lia | intros k' H; exact H].
  - apply Hrec; [lia | intros k' H; exact H].
Qed.

(** [claimSession] never throws: it either claims, or warns once. *)
Lemma claimSession_total (c : Ctx) :
  exists b s' evs n,
    claimSession c
    = (Ok tt, mkCtx (set_isActiveSession b (this c))
                (mkWorld s' (faults (world c)) (timers (world c))
                         (timerSeq (world c)) (events (world c) ++ evs)
                         (storageFailures (world c) + n)))
    /\ ((evs = [] /\ n = 0 /\ b = true)
        \/ (evs = [Warn CLAIM_WARNING] /\ n = 1
            /\ b = isActiveSession (this c)
            /\ shrinks s' (storage (world c)))).
Proof.
  destruct (claimSession_loop_frame (S (length (storage (world c)))) 0 c)
    as (r & s1 & n & E & Hsh & Hr); [lia|].
  destruct c as [[sid key iv cb act] [s f t ts ev sf]].
  js_unfold_in E. js_unfold_in Hsh.
  unfold claimSession. js_unfold. rewrite E.
  destruct Hr as [[-> ->]|[e [-> ->]]].
  - destruct (f OpSetItem) eqn:FS.
    + exists act, s1, [Warn CLAIM_WARNING], 1.
      split; [now rewrite Nat.add_0_r, Nat.add_1_r | right; auto].
    + exists true, (ls_setItem key SENTINEL s1), [], 0.
      split; [now rewrite app_nil_r | left; auto].
  - exists act, s1, [Warn CLAIM_WARNING], 1. split; [reflexivity | right; auto].
Qed.

(** A claim write that throws leaves the instance as the field initialiser
    made it, and the store without any key it did not have. *)
Lemma claimSession_failing_write (c : Ctx) :
  faults (world c) OpSetItem = true ->
  exists s',
    claimSession c
    = (Ok tt, mkCtx (this c)
                (mkWorld s' (faults (world c)) (timers (world c))
                         (timerSeq (world c))
                         (events (world c) ++ [Warn CLAIM_WARNING])
                         (S (storageFailures (world c)))))
    /\ shrinks s' (storage (world c)).
Proof.
  intros FS.
  destruct (claimSession_loop_frame (S (length (storage (world c)))) 0 c)
    as (r & s1 & n & E & Hsh & Hr); [lia|].
  destruct c as [[sid key iv cb act] [s f t ts ev sf]].
  js_unfold_in E. js_unfold_in Hsh. js_unfold_in FS.
  exists s1. split; [|exact Hsh].
  unfold claimSession. js_unfold. rewrite E.
  destruct Hr as [[-> ->]|[e [-> ->]]].
  - now rewrite FS, Nat.add_0_r.
  - now rewrite Nat.add_1_r.
Qed.

(** With the store available, [claimSession] sweeps and then writes. *)
Lemma claimSession_available (c : Ctx) :
  available (world c) ->
  claimSession c
  = (Ok tt,
     mkCtx (set_isActiveSession true (this c))
       (set_storage
          (ls_setItem (storageKey (this c)) SENTINEL
             (sweep (S (length (storage (world c)))) 0 (storage (world c))))
          (world c))).
Proof.
  intros Hav.
  pose proof (claimSession_loop_available
                (S (length (storage (world c)))) 0 c Hav) as E.
  destruct c as [[sid key iv cb act] [s f t ts ev sf]].
  unfold available in Hav. simpl in Hav.
  unfold claimSession. js_unfold. js_unfold_in E.
  rewrite E by lia. now rewrite Hav.
Qed.

Lemma construct_available (sid : string) (cb : Callback) (w : World) :
  available w ->
  construct sid cb w
  = (Ok tt,
     mkCtx (mkManager sid (claimKeyOf sid) (Some (S (timerSeq w))) cb true)
       (mkWorld
          (ls_setItem (claimKeyOf sid) SENTINEL
             (sweep (S (length (storage w))) 0 (storage w)))
          (faults w) (S (timerSeq w) :: timers w) (S (timerSeq w))
          (events w) (storageFailures w))).
Proof.
  intros Hav. unfold construct, constructorBody, bind.
  rewrite claimSession_available by exact Hav.
  destruct w as [s f t ts ev sf]. reflexivity.
Qed.

(** Construction never throws and never calls the callback. *)
Lemma construct_total (sid : string) (cb : Callback) (w : World) :
  exists b s' evs n,
    construct sid cb w
    = (Ok tt,
       mkCtx (mkManager sid (claimKeyOf sid) (Some (S (timerSeq w))) cb b)
         (mkWorld s' (faults w) (S (timerSeq w) :: timers w)
                  (S (timerSeq w)) (events w ++ evs)
                  (storageFailures w + n)))
    /\ ((evs = [] /\ n = 0 /\ b = true)
        \/ (evs = [Warn CLAIM_WARNING] /\ n = 1 /\ b = true
            /\ shrinks s' (storage w))).
Proof.
  destruct (claimSession_total (mkCtx (newObject sid cb) w))
    as (b & s' & evs & n & E & H).
  exists b, s', evs, n. split.
  - unfold construct, constructorBody, bind. rewrite E.
    destruct w as [s f t ts ev sf]. reflexivity.
  - simpl in H. destruct H as [(-> & -> & ->)|(-> & -> & -> & Hs)];
      [left | right]; auto.
Qed.

(** *** The periodic check, case by case *)

Lemma periodicCheck_evicted (c : Ctx) :
  isActiveSession (this c) = false -> periodicCheck c = (Ok tt, c).
Proof.
  destruct c as [[sid key iv cb act] w]. simpl. intros ->. reflexivity.
Qed.

Lemma periodicCheck_read_throws (c : Ctx) :
  isActiveSession (this c) = true ->
  faults (world c) OpGetItem = true ->
  periodicCheck c
  = (Ok tt, on_world (fun w => log_event (Warn CHECK_WARNING) (count_failure w)) c).
Proof.
  destruct c as [[sid key iv cb act] [s f t ts ev sf]]. simpl.
  intros -> F. unfold periodicCheck. js_unfold.
  change (negb true) with false. js_unfold. now rewrite F.
Qed.

Lemma periodicCheck_still_claimed (c : Ctx) :
  isActiveSession (this c) = true ->
  faults (world c) OpGetItem = false ->
  isSentinel (ls_getItem (storageKey (this c)) (storage (world c))) = true ->
  periodicCheck c = (Ok tt, c).
Proof.
  destruct c as [[sid key iv cb act] [s f t ts ev sf]]. simpl.
  intros -> F G. unfold periodicCheck. js_unfold.
  change (negb true) with false. js_unfold. now rewrite F, G.
Qed.

Lemma periodicCheck_evicts (c : Ctx) :
  isActiveSession (this c) = true ->
  faults (world c) OpGetItem = false ->
  isSentinel (ls_getItem (storageKey (this c)) (storage (world c))) = false ->
  periodicCheck c
  = (Ok tt,
     mkCtx (set_isActiveSession false (this c))
       (mkWorld (storage (world c)) (faults (world c))
          (timers_after_eviction (this c) (timers (world c)))
          (timerSeq (world c))
          (events (world c)
             ++ ConflictCalled (cb_id (onConflict (this c)))
             :: (if cb_throws (onConflict (this c))
                 then [Warn CHECK_WARNING] else []))
          (storageFailures (world c)))).
Proof.
  destruct c as [[sid key iv [id th] act] [s f t ts ev sf]]. simpl.
  intros -> F G. unfold periodicCheck, timers_after_eviction.
  js_unfold. change (negb true) with false. js_unfold. rewrite F, G.
  change (negb false) with true. js_unfold.
  destruct th.
  - now rewrite <- app_assoc.
  - destruct (truthy_handle iv); reflexivity.
Qed.

Lemma count_called_app (cb : nat) (l1 l2 : list Event) :
  count_called cb (l1 ++ l2) = count_called cb l1 + count_called cb l2.
Proof.
  induction l1 as [|[m|cb'] l1 IH]; simpl; [reflexivity | exact IH |].
  rewrite IH. lia.
Qed.

(** *** [releaseSession] *)

Lemma releaseSession_eq (c : Ctx) :
  releaseSession c
  = (Ok tt,
     mkCtx (this c)
       (mkWorld
          (if isActiveSession (this c) && negb (faults (world c) OpRemoveItem)
           then ls_removeItem (storageKey (this c)) (storage (world c))
           else storage (world c))
          (faults (world c))
          (match truthy_handle (intervalId (this c)) with
           | Some h => filter (fun h' => negb (Nat.eqb h h')) (timers (world c))
           | None => timers (world c)
           end)
          (timerSeq (world c)) (events (world c))
          (if isActiveSession (this c) && faults (world c) OpRemoveItem
           then S (storageFailures (world c))
           else storageFailures (world c)))).
Proof.
  destruct c as [[sid key iv cb act] [s f t ts ev sf]].
  unfold releaseSession. js_unfold.
  destruct (truthy_handle iv), act; simpl; try reflexivity;
    destruct (f OpRemoveItem); reflexivity.
Qed.

Lemma onBeforeUnload_eq (c : Ctx) :
  onBeforeUnload c
  = (Ok tt,
     mkCtx (this c)
       (mkWorld
          (if isActiveSession (this c) && negb (faults (world c) OpRemoveItem)
           then ls_removeItem (storageKey (this c)) (storage (world c))
           else storage (world c))
          (faults (world c)) (timers (world c))
          (timerSeq (world c)) (events (world c))
          (if isActiveSession (this c) && faults (world c) OpRemoveItem
           then S (storageFailures (world c))
           else storageFailures (world c)))).
Proof.
  destruct c as [[sid key iv cb act] [s f t ts ev sf]].
  unfold onBeforeUnload. js_unfold.
  destruct act; simpl; try reflexivity;
    destruct (f OpRemoveItem); reflexivity.
Qed.

(** *** One step of an instance's life *)

Lemma periodicCheck_step (c : Ctx) :
  exists c',
    periodicCheck c = (Ok tt, c')
    /\ onConflict (this c') = onConflict (this c)
    /\ ((isActiveSession (this c') = isActiveSession (this c)
         /\ conflicts c' = conflicts c)
        \/ (isActiveSession (this c) = true
            /\ isActiveSession (this c') = false
            /\ conflicts c' = S (conflicts c))).
Proof.
  destruct (isActiveSession (this c)) eqn:A.
  2:{ exists c. rewrite periodicCheck_evicted by exact A. rewrite A. auto. }
  destruct (faults (world c) OpGetItem) eqn:F.
  { eexists. rewrite periodicCheck_read_throws by assumption.
    split; [reflexivity|]. split; [reflexivity|]. left.
    destruct c as [[sid key iv cb act] [s f t ts ev sf]].
    unfold conflicts. simpl in *. rewrite count_called_app. simpl. split; [auto | lia]. }
  destruct (isSentinel (ls_getItem (storageKey (this c)) (storage (world c))))
    eqn:G.
  { exists c. rewrite periodicCheck_still_claimed by assumption. rewrite A. auto. }
  eexists. rewrite periodicCheck_evicts by assumption.
  split; [reflexivity|]. split; [reflexivity|]. right.
  split; [reflexivity|]. split; [reflexivity|].
  unfold conflicts. simpl. rewrite count_called_app. simpl.
  rewrite Nat.eqb_refl.
  destruct (cb_throws (onConflict (this c))); simpl; lia.
Qed.

Lemma run_step_spec (st : Step) (c : Ctx) :
  exists c',
    run_step st c = (Ok tt, c')
    /\ onConflict (this c') = onConflict (this c)
    /\ ((isActiveSession (this c') = isActiveSession (this c)
         /\ conflicts c' = conflicts c)
        \/ (isActiveSession (this c) = true
            /\ isActiveSession (this c') = false
            /\ conflicts c' = S (conflicts c))).
Proof.
  destruct st; simpl run_step.
  - exists c. auto.
  - eexists. rewrite releaseSession_eq. split; [reflexivity|]. simpl. auto.
  - apply periodicCheck_step.
  - eexists. rewrite onBeforeUnload_eq. split; [reflexivity|]. simpl. auto.
  - eexists. split; [reflexivity|]. simpl. auto.
  - eexists. split; [reflexivity|]. simpl. auto.
Qed.

End Methods.

(** ** Construction against an available store *)

Section Construction.

Lemma claimKeys_single_absent (k k' : string) (s : Storage) :
  claimKeys s = [k'] -> isClaimKey k = true -> k <> k' ->
  ls_getItem k s = None.
Proof.
  intros Hs Hk Hne. apply ls_getItem_None. intros Hin.
  assert (Hc : In k (claimKeys s)) by (apply filter_In; split; assumption).
  rewrite Hs in Hc. destruct Hc as [E|[]]. now apply Hne.
Qed.

(** A store that holds at most one claim key holds, after a construction,
    exactly the new instance's. *)
Lemma construct_claims (sid : string) (cb : Callback) (w : World) :
  available w ->
  length (claimKeys (storage w)) <= 1 ->
  let c := snd (construct sid cb w) in
  available (world c)
  /\ claimKeys (storage (world c)) = [storageKey (this c)]
  /\ ls_getItem (storageKey (this c)) (storage (world c)) = Some SENTINEL
  /\ this c = mkManager sid (claimKeyOf sid) (Some (S (timerSeq w))) cb true
  /\ events (world c) = events w.
Proof.
  intros Hav Hlen. rewrite (construct_available sid cb w Hav). simpl.
  repeat split.
  - exact Hav.
  - apply claimKeys_setItem_fresh;
      [now apply sweep_all_clears | apply isClaimKey_claimKeyOf].
  - apply ls_getItem_setItem.
Qed.

Lemma constructSeq_last (args : list (string * Callback)) (w : World) :
  args <> [] ->
  available w ->
  length (claimKeys (storage w)) <= 1 ->
  exists earlier b,
    fst (constructSeq args w) = earlier ++ [b]
    /\ sessionId b = fst (last args ("", mkCallback 0 false))
    /\ storageKey b = claimKeyOf (sessionId b)
    /\ isActiveSession b = true
    /\ claimKeys (storage (snd (constructSeq args w))) = [storageKey b]
    /\ ls_getItem (storageKey b) (storage (snd (constructSeq args w)))
       = Some SENTINEL.
Proof.
  revert w. induction args as [|[sid cb] rest IH]; intros w Hne Hav Hlen;
    [congruence|].
  destruct (construct_claims sid cb w Hav Hlen) as (Hav1 & Hck & Hget & Hthis & _).
  simpl constructSeq.
  destruct rest as [|x rest'].
  - simpl. exists [], (this (snd (construct sid cb w))).
    rewrite Hthis in *. simpl in *. repeat split; auto.
  - destruct (IH (world (snd (construct sid cb w))))
      as (earlier & b & E & Hsid & Hkey & Hact & Hc & Hg);
      [discriminate | exact Hav1 | rewrite Hck; simpl; lia |].
    destruct (constructSeq (x :: rest') (world (snd (construct sid cb w))))
      as [insts w'] eqn:Eseq.
    simpl in E, Hc, Hg. subst insts.
    exists (this (snd (construct sid cb w)) :: earlier), b.
    simpl fst. simpl snd. repeat split; assumption.
Qed.

End Construction.

(** ** Lives of an instance *)

Section Lives.

Lemma run_steps_spec (steps : list Step) (c : Ctx) :
  exists c',
    run_steps steps c = (repeat (Ok tt) (length steps), c')
    /\ onConflict (this c') = onConflict (this c)
    /\ ((isActiveSession (this c') = isActiveSession (this c)
         /\ conflicts c' = conflicts c)
        \/ (isActiveSession (this c) = true
            /\ isActiveSession (this c') = false
            /\ conflicts c' = S (conflicts c))).
Proof.
  revert c. induction steps as [|st steps IH]; intros c.
  - exists c. simpl. auto.
  - destruct (run_step_spec st c) as (c1 & E1 & Hcb1 & H1).
    destruct (IH c1) as (c2 & E2 & Hcb2 & H2).
    exists c2. simpl. rewrite E1, E2.
    split; [reflexivity|]. split; [congruence|].
    destruct H1 as [[A1 C1]|(A1 & B1 & C1)], H2 as [[A2 C2]|(A2 & B2 & C2)].
    + left. split; congruence.
    + right. repeat split; congruence.
    + right. repeat split; congruence.
    + congruence.
Qed.

Lemma ticks_evicted (n : nat) (c : Ctx) :
  isActiveSession (this c) = false ->
  run_steps (repeat Tick n) c = (repeat (Ok tt) n, c).
Proof.
  intros A. induction n as [|n IH]; simpl; [reflexivity|].
  now rewrite periodicCheck_evicted, IH.
Qed.

Lemma construct_unavailable (sid : string) (cb : Callback) (w : World) :
  unavailable w ->
  construct sid cb w
  = (Ok tt,
     mkCtx (mkManager sid (claimKeyOf sid) (Some (S (timerSeq w))) cb true)
       (mkWorld (storage w) (faults w) (S (timerSeq w) :: timers w)
          (S (timerSeq w)) (events w ++ [Warn CLAIM_WARNING])
          (S (storageFailures w)))).
Proof.
  destruct w as [s f t ts ev sf]. unfold unavailable. simpl. intros Hun.
  unfold construct, constructorBody, claimSession, setupListeners, newObject.
  simpl claimSession_loop. js_unfold. now rewrite Hun.
Qed.

Lemma ticks_unavailable (n : nat) (c : Ctx) :
  isActiveSession (this c) = true ->
  unavailable (world c) ->
  exists c',
    run_steps (repeat Tick n) c = (repeat (Ok tt) n, c')
    /\ this c' = this c
    /\ storage (world c') = storage (world c)
    /\ events (world c') = events (world c) ++ repeat (Warn CHECK_WARNING) n
    /\ storageFailures (world c') = storageFailures (world c) + n.
Proof.
  revert c. induction n as [|n IH]; intros c A Hun.
  - exists c. simpl. rewrite app_nil_r, Nat.add_0_r. auto.
  - simpl. rewrite periodicCheck_read_throws by (auto; apply Hun).
    destruct (IH (on_world (fun w => log_event (Warn CHECK_WARNING)
                                       (count_failure w)) c))
      as (c' & E & Ht & Hs & He & Hf); [exact A | exact Hun |].
    exists c'. rewrite E. split; [reflexivity|]. split; [exact Ht|].
    split; [exact Hs|]. split.
    + rewrite He. simpl. now rewrite <- app_assoc.
    + rewrite Hf. simpl. lia.
Qed.

Lemma count_warnings_app (l1 l2 : list Event) :
  count_warnings (l1 ++ l2) = count_warnings l1 + count_warnings l2.
Proof.
  induction l1 as [|[m|cb] l1 IH]; simpl; [reflexivity | | exact IH].
  now rewrite IH.
Qed.

Lemma count_warnings_repeat (m : string) (n : nat) :
  count_warnings (repeat (Warn m) n) = n.
Proof. induction n as [|n IH]; simpl; [reflexivity | now rewrite IH]. Qed.

Lemma filter_idem {A} (p : A -> bool) (l : list A) :
  filter p (filter p l) = filter p l.
Proof.
  induction l as [|x l IH]; simpl; [reflexivity|].
  destruct (p x) eqn:E; simpl; rewrite ?E, IH; reflexivity.
Qed.

Lemma isSentinel_false (v : option string) :
  v <> Some SENTINEL -> isSentinel v = false.
Proof.
  destruct v as [x|]; simpl; [|reflexivity].
  destruct (String.eqb_spec x SENTINEL) as [->|Hne]; [congruence|reflexivity].
Qed.

End Lives.

(** ** The properties of the specification *)

(** On a store that held at most one claim key beforehand: when B is
    constructed after A on the same, available store, with distinct session
    identifiers, one run of A's periodic check returns normally, calls A's
    callback exactly once and leaves A inactive, while B reports itself
    active and B's own check changes nothing. *)
Theorem newer_instance_evicts_older :
  forall (w : World) (sidA sidB : string) (cbA cbB : Callback),
    available w ->
    length (claimKeys (storage w)) <= 1 ->
    sidA <> sidB ->
    let cA := snd (construct sidA cbA w) in
    let cB := snd (construct sidB cbB (world cA)) in
    let rA := periodicCheck (mkCtx (this cA) (world cB)) in
    let b := mkCtx (this cB) (world (snd rA)) in
    fst rA = Ok tt
    /\ count_called (cb_id cbA) (events (world (snd rA)))
       = S (count_called (cb_id cbA) (events w))
    /\ isCurrentActiveSession (snd rA) = (Ok false, snd rA)
    /\ isCurrentActiveSession b = (Ok true, b)
    /\ periodicCheck b = (Ok tt, b).
Proof.
  intros w sidA sidB cbA cbB Hav Hlen Hne cA cB.
  destruct (construct_claims sidA cbA w Hav Hlen)
    as (HavA & HckA & _ & HthisA & HevA).
  fold cA in HavA, HckA, HthisA, HevA.
  assert (HlenA : length (claimKeys (storage (world cA))) <= 1)
    by (rewrite HckA; simpl; lia).
  destruct (construct_claims sidB cbB (world cA) HavA HlenA)
    as (HavB & HckB & HgetB & HthisB & HevB).
  fold cB in HavB, HckB, HgetB, HthisB, HevB.
  assert (HgetA : ls_getItem (storageKey (this cA)) (storage (world cB)) = None).
  { apply (claimKeys_single_absent _ _ _ HckB).
    - rewrite HthisA. apply isClaimKey_claimKeyOf.
    - rewrite HthisA, HthisB. simpl. intros E. apply Hne.
      now apply claimKeyOf_inj. }
  intros rA. subst rA.
  rewrite periodicCheck_evicts;
    [ | rewrite HthisA; reflexivity | apply HavB | simpl; now rewrite HgetA ].
  intros b. subst b. simpl.
  split; [reflexivity|]. split.
  { rewrite HevB, HevA, HthisA, count_called_app. simpl.
    rewrite Nat.eqb_refl. destruct (cb_throws cbA); simpl; lia. }
  split; [reflexivity|]. split.
  { rewrite HthisB. reflexivity. }
  rewrite periodicCheck_still_claimed; simpl;
    [reflexivity | rewrite HthisB; reflexivity | apply HavB |].
  rewrite HgetB. reflexivity.
Qed.

Lemma newer_instance_evicts_older_witness :
  let cA := snd (construct "a" quietCallback emptyWorld) in
  let cB := snd (construct "b" (mkCallback 8 false) (world cA)) in
  let rA := periodicCheck (mkCtx (this cA) (world cB)) in
  count_called 7 (events (world (snd rA))) = 1
  /\ isCurrentActiveSession (snd rA) = (Ok false, snd rA).
Proof.
  pose proof (newer_instance_evicts_older emptyWorld "a" "b" quietCallback
                (mkCallback 8 false) (fun _ => eq_refl)) as H.
  simpl in H. specialize (H (le_S _ _ (le_n 0))).
  assert (Hne : "a" <> "b") by discriminate.
  specialize (H Hne). destruct H as (_ & Hc & Ha & _).
  split; [exact Hc | exact Ha].
Defined.

(** C1 (the code departs from it): on a store that already holds two claim
    keys side by side, A's sweep removes the first and skips the second,
    and B's sweep removes that second one and skips A's key, which slid into
    the freed slot.  A's key survives B's construction with the sentinel, so
    A's periodic check finds it, A stays active and its callback is not
    called, while B is active as well. *)
Theorem stale_claims_shield_older_instance :
  let w := mkWorld [(claimKeyOf "x", "active"); (claimKeyOf "y", "active")]
                   noFaults [] 0 [] 0 in
  let cA := snd (construct "a" quietCallback w) in
  let cB := snd (construct "b" (mkCallback 8 false) (world cA)) in
  let rA := periodicCheck (mkCtx (this cA) (world cB)) in
  storage (world cA) = [(claimKeyOf "y", "active"); (claimKeyOf "a", "active")]
  /\ storage (world cB)
     = [(claimKeyOf "a", "active"); (claimKeyOf "b", "active")]
  /\ fst rA = Ok tt
  /\ isCurrentActiveSession (snd rA) = (Ok true, snd rA)
  /\ count_called (cb_id quietCallback) (events (world (snd rA))) = 0
  /\ isCurrentActiveSession (mkCtx (this cB) (world (snd rA)))
     = (Ok true, mkCtx (this cB) (world (snd rA))).
Proof.
  vm_compute. repeat split.
Qed.

(** C2 (the code departs from it): a store that already holds two claim keys
    side by side keeps the second one through a construction, because the
    sweep advances its index past the entry that slid into the freed slot. *)
Theorem sweep_skips_after_removal :
  let w := mkWorld [(claimKeyOf "a", "active"); (claimKeyOf "b", "active")]
                   noFaults [] 0 [] 0 in
  let c := snd (construct "c" quietCallback w) in
  fst (construct "c" quietCallback w) = Ok tt
  /\ claimKeys (storage (world c)) = [claimKeyOf "b"; claimKeyOf "c"]
  /\ claimKeys (storage (world c)) <> [storageKey (this c)].
Proof.
  vm_compute. repeat split. discriminate.
Qed.

(** C3: for every N >= 1, N constructions in sequence on an available store
    that starts without claim keys leave exactly one claim key, the one of
    the instance constructed last, holding the sentinel. *)
Theorem sequential_constructions_leave_last_claim :
  forall (N : nat) (args : list (string * Callback)) (w : World),
    N >= 1 ->
    length args = N ->
    available w ->
    claimKeys (storage w) = [] ->
    exists earlier lastInst,
      fst (constructSeq args w) = earlier ++ [lastInst]
      /\ length earlier = N - 1
      /\ sessionId lastInst = fst (last args ("", mkCallback 0 false))
      /\ storageKey lastInst = claimKeyOf (sessionId lastInst)
      /\ isActiveSession lastInst = true
      /\ claimKeys (storage (snd (constructSeq args w))) = [storageKey lastInst]
      /\ ls_getItem (storageKey lastInst) (storage (snd (constructSeq args w)))
         = Some SENTINEL.
Proof.
  intros N args w HN Hlen Hav Hnil.
  assert (Hne : args <> []) by (intros ->; simpl in Hlen; lia).
  destruct (constructSeq_last args w Hne Hav) as (earlier & b & E & H);
    [rewrite Hnil; simpl; lia|].
  exists earlier, b. split; [exact E|]. split; [|exact H].
  assert (Hl : length (fst (constructSeq args w)) = length args).
  { clear. revert w. induction args as [|[sid cb] rest IH]; intros w;
      [reflexivity|].
    simpl. specialize (IH (world (snd (construct sid cb w)))).
    destruct (constructSeq rest (world (snd (construct sid cb w)))).
    simpl in *. now rewrite IH. }
  rewrite E, length_app in Hl. simpl in Hl. lia.
Qed.

Lemma sequential_constructions_leave_last_claim_witness :
  exists earlier lastInst,
    fst (constructSeq [("a", quietCallback); ("b", quietCallback);
                       ("c", quietCallback)] emptyWorld)
    = earlier ++ [lastInst]
    /\ length earlier = 2
    /\ sessionId lastInst = "c".
Proof.
  destruct (sequential_constructions_leave_last_claim 3
              [("a", quietCallback); ("b", quietCallback); ("c", quietCallback)]
              emptyWorld (le_S _ _ (le_S _ _ (le_n 1))) eq_refl
              (fun _ => eq_refl) eq_refl)
    as (earlier & b & E & Hl & Hs & _).
  exists earlier, b. repeat split; assumption.
Defined.

(** C4: over any life that starts with its construction, an instance's
    conflict callback is called at most once and no step throws; and on an
    evicted instance any number of further periodic checks return normally
    and change nothing at all, the trace of callback calls included. *)
Theorem conflict_callback_at_most_once :
  (forall (sid : string) (cb : Callback) (w : World) (steps : list Step),
      let c0 := snd (construct sid cb w) in
      let r := run_steps steps c0 in
      fst (construct sid cb w) = Ok tt
      /\ fst r = repeat (Ok tt) (length steps)
      /\ count_called (cb_id cb) (events (world (snd r)))
         <= S (count_called (cb_id cb) (events w)))
  /\ (forall (c : Ctx) (n : nat),
        isActiveSession (this c) = false ->
        run_steps (repeat Tick n) c = (repeat (Ok tt) n, c)).
Proof.
  split.
  - intros sid cb w steps c0 r. subst r c0.
    destruct (construct_total sid cb w) as (b & s' & evs & n & E & H).
    rewrite E. simpl fst. simpl snd.
    match goal with |- context [run_steps steps ?c] =>
      destruct (run_steps_spec steps c) as (c' & E' & Hcb & Hr) end.
    rewrite E'. simpl fst. simpl snd.
    split; [reflexivity|]. split; [reflexivity|].
    assert (Hc : conflicts c' <= S (count_called (cb_id cb) (events w))).
    { unfold conflicts in Hr at 2 4. simpl in Hr.
      rewrite count_called_app in Hr.
      assert (Hz : count_called (cb_id cb) evs = 0)
        by (destruct H as [(-> & _)|(-> & _)]; reflexivity).
      rewrite Hz, Nat.add_0_r in Hr.
      destruct Hr as [[_ ->]|(_ & _ & ->)]; lia. }
    unfold conflicts in Hc. now rewrite Hcb in Hc.
  - intros c n A. now apply ticks_evicted.
Qed.

Lemma conflict_callback_at_most_once_witness :
  run_steps (repeat Tick 3) evictedInstance
  = (repeat (Ok tt) 3, evictedInstance).
Proof.
  exact (proj2 conflict_callback_at_most_once evictedInstance 3 eq_refl).
Defined.

(** C5: when every storage operation throws, construction and every run of
    the periodic check return normally, the instance keeps reporting itself
    active, the store is untouched, and each storage operation that failed
    (one at construction, one per check) left one warning in the trace. *)
Theorem unavailable_storage_is_swallowed :
  forall (sid : string) (cb : Callback) (w : World) (n : nat),
    unavailable w ->
    let c0 := snd (construct sid cb w) in
    let r := run_steps (repeat Tick n) c0 in
    fst (construct sid cb w) = Ok tt
    /\ isCurrentActiveSession c0 = (Ok true, c0)
    /\ fst r = repeat (Ok tt) n
    /\ isCurrentActiveSession (snd r) = (Ok true, snd r)
    /\ storage (world (snd r)) = storage w
    /\ events (world (snd r))
       = events w ++ Warn CLAIM_WARNING :: repeat (Warn CHECK_WARNING) n
    /\ storageFailures (world (snd r)) = storageFailures w + (1 + n)
    /\ count_warnings (events (world (snd r)))
       = count_warnings (events w) + (1 + n).
Proof.
  intros sid cb w n Hun c0 r. subst r c0.
  rewrite (construct_unavailable sid cb w Hun). simpl fst. simpl snd.
  match goal with |- context [run_steps _ ?c] =>
    destruct (ticks_unavailable n c) as (c' & E & Ht & Hs & He & Hf);
      [reflexivity | exact Hun |] end.
  rewrite E. simpl fst. simpl snd. simpl in Ht, Hs, He, Hf.
  split; [reflexivity|]. split; [reflexivity|]. split; [reflexivity|].
  split; [destruct c' as [a' w']; simpl in Ht; subst a'; reflexivity|].
  split; [exact Hs|]. split; [|split].
  - rewrite He, <- app_assoc. reflexivity.
  - rewrite Hf. lia.
  - rewrite He, !count_warnings_app, count_warnings_repeat. simpl. lia.
Qed.

Lemma unavailable_storage_is_swallowed_witness :
  let c0 := snd (construct "a" quietCallback brokenWorld) in
  let r := run_steps (repeat Tick 2) c0 in
  isCurrentActiveSession (snd r) = (Ok true, snd r)
  /\ events (world (snd r))
     = [Warn CLAIM_WARNING; Warn CHECK_WARNING; Warn CHECK_WARNING].
Proof.
  destruct (unavailable_storage_is_swallowed "a" quietCallback brokenWorld 2
              (fun _ => eq_refl)) as (_ & _ & _ & Ha & _ & He & _ & _).
  split; [exact Ha | exact He].
Defined.

(** C6: on a still-active instance, with removal from the store working,
    [releaseSession] returns normally and removes exactly the instance's own
    claim key; a second call returns normally and changes nothing. *)
Theorem release_removes_claim_then_noop :
  forall c : Ctx,
    isActiveSession (this c) = true ->
    faults (world c) OpRemoveItem = false ->
    let r1 := releaseSession c in
    let r2 := releaseSession (snd r1) in
    fst r1 = Ok tt
    /\ storage (world (snd r1))
       = ls_removeItem (storageKey (this c)) (storage (world c))
    /\ ls_getItem (storageKey (this c)) (storage (world (snd r1))) = None
    /\ r2 = (Ok tt, snd r1).
Proof.
  intros c A F r1 r2. subst r2 r1.
  rewrite (releaseSession_eq c). simpl fst. simpl snd.
  rewrite releaseSession_eq. simpl. rewrite A, F. simpl.
  split; [reflexivity|]. split; [reflexivity|].
  split; [apply ls_getItem_removeItem|].
  rewrite ls_removeItem_idem.
  destruct (truthy_handle (intervalId (this c))); [|reflexivity].
  now rewrite filter_idem.
Qed.

Lemma release_removes_claim_then_noop_witness :
  storage (world (snd (releaseSession activeInstance))) = [("projects", "[]")]
  /\ releaseSession (snd (releaseSession activeInstance))
     = (Ok tt, snd (releaseSession activeInstance)).
Proof.
  destruct (release_removes_claim_then_noop activeInstance eq_refl eq_refl)
    as (_ & Hs & _ & Hr).
  split; [exact Hs | exact Hr].
Defined.

(** C7: on an evicted instance [releaseSession] returns normally and leaves
    the store exactly as it was, whatever it holds and whether or not its
    operations throw; the instance and the trace are untouched too. *)
Theorem release_after_eviction_keeps_store :
  forall c : Ctx,
    isActiveSession (this c) = false ->
    let r := releaseSession c in
    fst r = Ok tt
    /\ storage (world (snd r)) = storage (world c)
    /\ this (snd r) = this c
    /\ events (world (snd r)) = events (world c)
    /\ storageFailures (world (snd r)) = storageFailures (world c).
Proof.
  intros c A r. subst r. rewrite releaseSession_eq. simpl. rewrite A.
  simpl. auto.
Qed.

Lemma release_after_eviction_keeps_store_witness :
  storage (world (snd (releaseSession evictedInstance)))
  = [(claimKeyOf "b", "active")].
Proof.
  exact (proj1 (proj2 (release_after_eviction_keeps_store evictedInstance
                         eq_refl))).
Defined.

(** C8: once the active flag is false it stays false through any sequence
    of public calls, timer ticks, [beforeunload] events and changes made to
    the store by others, and [isCurrentActiveSession] keeps returning
    false. *)
Theorem evicted_is_terminal :
  forall (c : Ctx) (steps : list Step),
    isActiveSession (this c) = false ->
    let r := run_steps steps c in
    fst r = repeat (Ok tt) (length steps)
    /\ isActiveSession (this (snd r)) = false
    /\ isCurrentActiveSession (snd r) = (Ok false, snd r).
Proof.
  intros c steps A r. subst r.
  destruct (run_steps_spec steps c) as (c' & E & _ & H).
  rewrite E. simpl fst. simpl snd. split; [reflexivity|].
  assert (A' : isActiveSession (this c') = false)
    by (destruct H as [[H _]|(H & _)]; congruence).
  split; [exact A'|].
  destruct c' as [[sid key iv cb act] w']. simpl in A'. now subst act.
Qed.

Lemma evicted_is_terminal_witness :
  isActiveSession
    (this (snd (run_steps
                  [Tick; EnvStorage (fun _ => [(claimKeyOf "a", "active")]);
                   Tick; CallReleaseSession; BeforeUnload;
                   CallIsCurrentActiveSession; EnvFaults allFaults; Tick]
                  evictedInstance)))
  = false.
Proof.
  exact (proj1 (proj2 (evicted_is_terminal evictedInstance
    [Tick; EnvStorage (fun _ => [(claimKeyOf "a", "active")]);
     Tick; CallReleaseSession; BeforeUnload;
     CallIsCurrentActiveSession; EnvFaults allFaults; Tick] eq_refl))).
Defined.

(** C9: [releaseSession] on a still-active instance returns normally,
    leaves every field of the instance as it was, so that
    [isCurrentActiveSession] still returns true, although the instance's
    timer is no longer running and (when removal works) its claim key is
    gone from the store. *)
Theorem released_instance_still_reports_active :
  forall c : Ctx,
    isActiveSession (this c) = true ->
    let r := releaseSession c in
    fst r = Ok tt
    /\ this (snd r) = this c
    /\ isCurrentActiveSession (snd r) = (Ok true, snd r)
    /\ (forall h, intervalId (this c) = Some (S h) ->
                  ~ In (S h) (timers (world (snd r))))
    /\ (faults (world c) OpRemoveItem = false ->
        ls_getItem (storageKey (this c)) (storage (world (snd r))) = None).
Proof.
  intros c A r. subst r. rewrite releaseSession_eq. simpl fst. simpl snd.
  split; [reflexivity|]. split; [reflexivity|]. split.
  { destruct c as [[sid key iv cb act] w]. simpl in A. now subst act. }
  split.
  - intros h Hh. simpl. rewrite Hh. simpl. rewrite filter_In.
    intros [_ H]. now rewrite Nat.eqb_refl in H.
  - intros F. simpl. rewrite A, F. simpl. apply ls_getItem_removeItem.
Qed.

Lemma released_instance_still_reports_active_witness :
  isCurrentActiveSession (snd (releaseSession activeInstance))
  = (Ok true, snd (releaseSession activeInstance))
  /\ ~ In 1 (timers (world (snd (releaseSession activeInstance))))
  /\ ls_getItem (claimKeyOf "a")
       (storage (world (snd (releaseSession activeInstance)))) = None.
Proof.
  destruct (released_instance_still_reports_active activeInstance eq_refl)
    as (_ & _ & Ha & Ht & Hk).
  split; [exact Ha|]. split; [exact (Ht 0 eq_refl) | exact (Hk eq_refl)].
Defined.

(** C10: an active instance whose read succeeds and returns anything but
    the sentinel is evicted by the check, which calls the callback once;
    in particular an instance whose claim write threw at construction (its
    key not being in store before) is still constructed active with its key
    absent, and is evicted by its first check as soon as reads succeed,
    with no other instance involved. *)
Theorem check_evicts_on_any_other_value :
  (forall c : Ctx,
      isActiveSession (this c) = true ->
      faults (world c) OpGetItem = false ->
      ls_getItem (storageKey (this c)) (storage (world c)) <> Some SENTINEL ->
      let r := periodicCheck c in
      fst r = Ok tt
      /\ isActiveSession (this (snd r)) = false
      /\ conflicts (snd r) = S (conflicts c)
      /\ storage (world (snd r)) = storage (world c))
  /\ (forall (sid : string) (cb : Callback) (w : World)
             (later : StorageOp -> bool),
        faults w OpSetItem = true ->
        ls_getItem (claimKeyOf sid) (storage w) = None ->
        later OpGetItem = false ->
        let c0 := snd (construct sid cb w) in
        let r := periodicCheck (on_world (set_faults later) c0) in
        fst (construct sid cb w) = Ok tt
        /\ isActiveSession (this c0) = true
        /\ ls_getItem (storageKey (this c0)) (storage (world c0)) = None
        /\ fst r = Ok tt
        /\ isActiveSession (this (snd r)) = false
        /\ count_called (cb_id cb) (events (world (snd r)))
           = S (count_called (cb_id cb) (events w))).
Proof.
  assert (Hgen : forall c : Ctx,
      isActiveSession (this c) = true ->
      faults (world c) OpGetItem = false ->
      ls_getItem (storageKey (this c)) (storage (world c)) <> Some SENTINEL ->
      fst (periodicCheck c) = Ok tt
      /\ isActiveSession (this (snd (periodicCheck c))) = false
      /\ conflicts (snd (periodicCheck c)) = S (conflicts c)
      /\ storage (world (snd (periodicCheck c))) = storage (world c)).
  { intros c A F G.
    rewrite periodicCheck_evicts by (auto using isSentinel_false).
    simpl. split; [reflexivity|]. split; [reflexivity|].
    split; [|reflexivity].
    unfold conflicts. simpl. rewrite count_called_app. simpl.
    rewrite Nat.eqb_refl. destruct (cb_throws (onConflict (this c))); simpl; lia. }
  split; [exact Hgen|].
  intros sid cb w later FS Habs FG c0 r. subst r c0.
  destruct (claimSession_failing_write (mkCtx (newObject sid cb) w) FS)
    as (s' & E & Hsh).
  assert (Ec : construct sid cb w
               = (Ok tt,
                  mkCtx (mkManager sid (claimKeyOf sid) (Some (S (timerSeq w)))
                           cb true)
                    (mkWorld s' (faults w) (S (timerSeq w) :: timers w)
                       (S (timerSeq w)) (events w ++ [Warn CLAIM_WARNING])
                       (S (storageFailures w))))).
  { unfold construct, constructorBody, bind. rewrite E.
    destruct w as [s f t ts ev sf]. reflexivity. }
  rewrite Ec. simpl fst. simpl snd.
  assert (Hk : ls_getItem (claimKeyOf sid) s' = None) by (apply Hsh, Habs).
  split; [reflexivity|]. split; [reflexivity|]. split; [exact Hk|].
  match goal with |- context [periodicCheck ?c] =>
    destruct (Hgen c) as (H1 & H2 & H3 & _);
      [reflexivity | exact FG | simpl; rewrite Hk; discriminate |] end.
  split; [exact H1|]. split; [exact H2|].
  unfold conflicts in H3. simpl in H3.
  rewrite count_called_app in H3. simpl in H3.
  rewrite Nat.add_0_r in H3.
  match goal with |- count_called _ (events (world (snd (periodicCheck ?c)))) = _ =>
    assert (Hid : cb_id (onConflict (this (snd (periodicCheck c)))) = cb_id cb) end.
  { rewrite periodicCheck_evicts;
      [reflexivity | reflexivity | exact FG |].
    apply isSentinel_false. simpl. rewrite Hk. discriminate. }
  rewrite Hid in H3. exact H3.
Qed.

Lemma check_evicts_on_any_other_value_witness :
  (let r := periodicCheck
              (on_world (set_storage [(claimKeyOf "a", "stale")]) activeInstance) in
   isActiveSession (this (snd r)) = false /\ conflicts (snd r) = 1)
  /\ (let c0 := snd (construct "a" quietCallback
                       (set_faults writeFails emptyWorld)) in
      let r := periodicCheck (on_world (set_faults noFaults) c0) in
      isActiveSession (this c0) = true
      /\ isActiveSession (this (snd r)) = false
      /\ count_called 7 (events (world (snd r))) = 1).
Proof.
  split.
  - assert (Hv : ls_getItem (claimKeyOf "a") [(claimKeyOf "a", "stale")]
                 <> Some SENTINEL) by discriminate.
    destruct (proj1 check_evicts_on_any_other_value
                (on_world (set_storage [(claimKeyOf "a", "stale")]) activeInstance)
                eq_refl eq_refl Hv) as (_ & He & Hc & _).
    split; [exact He | exact Hc].
  - destruct (proj2 check_evicts_on_any_other_value "a" quietCallback
                (set_faults writeFails emptyWorld) noFaults
                eq_refl eq_refl eq_refl)
      as (_ & Ha & _ & _ & He & Hc).
    split; [exact Ha|]. split; [exact He | exact Hc].
Defined.

(** ** Further properties of the session manager and of the helpers *)

Section ManagerFrame.

Lemma ls_getItem_removeItem_other (k k' : string) (s : Storage) :
  k <> k' -> ls_getItem k (ls_removeItem k' s) = ls_getItem k s.
Proof.
  intros Hne. induction s as [|[x v] s IH]; simpl; [reflexivity|].
  destruct (String.eqb_spec k' x) as [->|Hx]; simpl.
  - destruct (String.eqb_spec k x) as [->|_]; [congruence | exact IH].
  - destruct (String.eqb k x); [reflexivity | exact IH].
Qed.

Lemma ls_getItem_setItem_other (k k' v : string) (s : Storage) :
  k <> k' -> ls_getItem k (ls_setItem k' v s) = ls_getItem k s.
Proof.
  intros Hne. induction s as [|[x u] s IH]; simpl.
  - destruct (String.eqb_spec k k'); [congruence | reflexivity].
  - destruct (String.eqb_spec k' x) as [->|Hx]; simpl.
    + destruct (String.eqb_spec k x); [congruence | reflexivity].
    + destruct (String.eqb k x); [reflexivity | exact IH].
Qed.

(** The sweep reads and removes claim keys only, whatever fails. *)
Lemma claimSession_loop_keeps_others (k : string) (fuel i : nat) (c : Ctx) :
  isClaimKey k = false ->
  exists r c',
    claimSession_loop fuel i c = (r, c')
    /\ ls_getItem k (storage (world c')) = ls_getItem k (storage (world c)).
Proof.
  intros Hk. revert i c. induction fuel as [|fuel IH];
    intros i [a [s f t ts ev sf]].
  { eexists _, _. split; reflexivity. }
  assert (Hrec : forall s0,
    ls_getItem k s0 = ls_getItem k s ->
    exists r c',
      claimSession_loop fuel (S i) (mkCtx a (mkWorld s0 f t ts ev sf)) = (r, c')
      /\ ls_getItem k (storage (world c')) = ls_getItem k s).
  { intros s0 H0.
    destruct (IH (S i) (mkCtx a (mkWorld s0 f t ts ev sf))) as (r & c' & E & H).
    exists r, c'. split; [exact E | simpl in H; congruence]. }
  simpl claimSession_loop. simpl (storage _). js_unfold.
  destruct (f OpLength); [eexists _, _; split; reflexivity|].
  destruct (Nat.ltb i (length s)); [|eexists _, _; split; reflexivity].
  destruct (f OpKey); [eexists _, _; split; reflexivity|].
  destruct (ls_key i s) as [k'|].
  - destruct (negb (String.eqb k' "") && isClaimKey k') eqn:G.
    + destruct (f OpRemoveItem); [eexists _, _; split; reflexivity|].
      destruct (Hrec (ls_removeItem k' s)) as (r & c' & E & H).
      { apply ls_getItem_removeItem_other.
        apply andb_prop in G. destruct G as [_ G]. congruence. }
      exists r, c'. split; [exact E | exact H].
    + destruct (Hrec s eq_refl) as (r & c' & E & H).
      exists r, c'. split; [exact E | exact H].
  - destruct (Hrec s eq_refl) as (r & c' & E & H).
    exists r, c'. split; [exact E | exact H].
Qed.

Lemma appKey_not_claim (k : string) : appKey k -> isClaimKey k = false.
Proof. intros [| | | |projectId]; reflexivity. Qed.

Lemma claimKeys_setItem_other (k v : string) (s : Storage) :
  isClaimKey k = false -> claimKeys (ls_setItem k v s) = claimKeys s.
Proof.
  intros Hk. unfold claimKeys.
  induction s as [|[x u] s IH]; simpl; [now rewrite Hk|].
  destruct (String.eqb_spec k x) as [->|Hx]; simpl; [reflexivity|].
  now rewrite IH.
Qed.

Lemma construct_keeps_others (sid : string) (cb : Callback) (w : World)
      (k : string) :
  isClaimKey k = false ->
  ls_getItem k (storage (world (snd (construct sid cb w))))
  = ls_getItem k (storage w).
Proof.
  intros Hk.
  destruct (claimSession_loop_keeps_others k (S (length (storage w))) 0
              (mkCtx (newObject sid cb) w) Hk) as (r & [a1 w1] & E & H).
  assert (Hne : k <> claimKeyOf sid).
  { intros ->. now rewrite isClaimKey_claimKeyOf in Hk. }
  destruct w as [s f t ts ev sf]. unfold newObject in E.
  js_unfold_in E. js_unfold_in H.
  unfold construct, constructorBody, claimSession, setupListeners, newObject.
  js_unfold. rewrite E.
  destruct w1 as [s1 f1 t1 ts1 ev1 sf1]. simpl in H.
  destruct r as [[]|e|]; simpl; try exact H.
  destruct (f1 OpSetItem); simpl; [exact H|].
  now rewrite ls_getItem_setItem_other.
Qed.

End ManagerFrame.

Section HelperFacts.

Context {T : Type}.
Variable JSON_parse : string -> option T.
Variable JSON_stringify : T -> option string.

Lemma loadFromLocalStorage_eq (key : string) (d : T) (c : Ctx) :
  loadFromLocalStorage JSON_parse key d c
  = if faults (world c) OpGetItem
    then (Ok d, on_world (fun w => log_event (Warn (loadWarning key))
                                     (count_failure w)) c)
    else match ls_getItem key (storage (world c)) with
         | None => (Ok d, c)
         | Some v =>
             if String.eqb v "" then (Ok d, c)
             else match JSON_parse v with
                  | Some x => (Ok x, c)
                  | None => (Ok d, on_world (log_event (Warn (loadWarning key))) c)
                  end
         end.
Proof.
  destruct c as [a [s f t ts ev sf]].
  unfold loadFromLocalStorage. js_unfold.
  destruct (f OpGetItem); [reflexivity|].
  destruct (ls_getItem key s) as [v|]; [|reflexivity].
  destruct (String.eqb v ""); [reflexivity|].
  destruct (JSON_parse v); reflexivity.
Qed.

Lemma saveToLocalStorage_eq (key : string) (v : T) (c : Ctx)
      (errors : list string) :
  saveToLocalStorage JSON_stringify key v c errors
  = match JSON_stringify v with
    | None => (Ok tt, c, errors ++ [saveError key])
    | Some text =>
        if faults (world c) OpSetItem
        then (Ok tt, on_world count_failure c, errors ++ [saveError key])
        else (Ok tt,
              on_world (set_storage (ls_setItem key text (storage (world c)))) c,
              errors)
    end.
Proof.
  destruct c as [a [s f t ts ev sf]].
  unfold saveToLocalStorage. js_unfold.
  destruct (JSON_stringify v) as [text|]; [|reflexivity].
  destruct (f OpSetItem); reflexivity.
Qed.

End HelperFacts.

(** X1: constructing a session manager, whatever storage operations fail
    meanwhile, leaves the entry under every application key as it was, so
    that [loadFromLocalStorage] returns for it what it returned before. *)
Theorem construction_keeps_application_data :
  forall (T : Type) (JSON_parse : string -> option T) (d : T)
         (sid : string) (cb : Callback) (w : World) (k : string)
         (a : ActiveSessionManager),
    appKey k ->
    let w' := world (snd (construct sid cb w)) in
    ls_getItem k (storage w') = ls_getItem k (storage w)
    /\ fst (loadFromLocalStorage JSON_parse k d (mkCtx a w'))
       = fst (loadFromLocalStorage JSON_parse k d (mkCtx a w)).
Proof.
  intros T JSON_parse d sid cb w k a Hk w'. subst w'.
  pose proof (construct_keeps_others sid cb w k (appKey_not_claim k Hk)) as H.
  split; [exact H|].
  rewrite !loadFromLocalStorage_eq.
  destruct (construct_total sid cb w) as (b & s' & evs & n & E & _).
  rewrite E in *. simpl in *. rewrite H.
  destruct (faults w OpGetItem); [reflexivity|].
  destruct (ls_getItem k (storage w)) as [v|]; [|reflexivity].
  destruct (String.eqb v ""); [reflexivity|].
  destruct (JSON_parse v); reflexivity.
Qed.

Lemma construction_keeps_application_data_witness :
  ls_getItem LOCAL_STORAGE_PROJECTS
    (storage (world (snd (construct "b" quietCallback
                            (set_storage
                               [(claimKeyOf "a", "active");
                                (LOCAL_STORAGE_PROJECTS, "[]")] emptyWorld)))))
  = Some "[]".
Proof.
  exact (proj1 (construction_keeps_application_data nat (fun _ => None) 0
                  "b" quietCallback
                  (set_storage [(claimKeyOf "a", "active");
                                (LOCAL_STORAGE_PROJECTS, "[]")] emptyWorld)
                  LOCAL_STORAGE_PROJECTS (newObject "x" quietCallback)
                  appKey_projects)).
Defined.

(** X2: a periodic check whose read throws does not evict: the instance
    is left exactly as it was, the store and the timers are untouched, the
    callback is not called, and one warning is logged. *)
Theorem failed_read_does_not_evict :
  forall c : Ctx,
    isActiveSession (this c) = true ->
    faults (world c) OpGetItem = true ->
    let r := periodicCheck c in
    fst r = Ok tt
    /\ this (snd r) = this c
    /\ storage (world (snd r)) = storage (world c)
    /\ timers (world (snd r)) = timers (world c)
    /\ events (world (snd r)) = events (world c) ++ [Warn CHECK_WARNING]
    /\ conflicts (snd r) = conflicts c.
Proof.
  intros c A F r. subst r. rewrite periodicCheck_read_throws by assumption.
  simpl. repeat split.
  unfold conflicts. simpl. rewrite count_called_app. simpl. lia.
Qed.

Lemma failed_read_does_not_evict_witness :
  let c := on_world (set_faults allFaults) activeInstance in
  this (snd (periodicCheck c)) = this c
  /\ events (world (snd (periodicCheck c))) = [Warn CHECK_WARNING].
Proof.
  destruct (failed_read_does_not_evict
              (on_world (set_faults allFaults) activeInstance)
              eq_refl eq_refl) as (_ & Ht & _ & _ & He & _).
  split; [exact Ht | exact He].
Defined.

(** X3: the check that evicts stops the instance's own timer and no other
    one, provided the callback returns; when the callback throws, the
    exception is caught and logged, the timer is left running, and every
    later tick is a no-op. *)
Theorem eviction_stops_own_timer_only :
  forall (c : Ctx) (h n : nat),
    isActiveSession (this c) = true ->
    faults (world c) OpGetItem = false ->
    ls_getItem (storageKey (this c)) (storage (world c)) <> Some SENTINEL ->
    intervalId (this c) = Some (S h) ->
    let r := periodicCheck c in
    fst r = Ok tt
    /\ (cb_throws (onConflict (this c)) = false ->
        ~ In (S h) (timers (world (snd r)))
        /\ (forall h', h' <> S h ->
                       (In h' (timers (world (snd r)))
                        <-> In h' (timers (world c))))
        /\ events (world (snd r))
           = events (world c) ++ [ConflictCalled (cb_id (onConflict (this c)))])
    /\ (cb_throws (onConflict (this c)) = true ->
        timers (world (snd r)) = timers (world c)
        /\ events (world (snd r))
           = events (world c)
               ++ [ConflictCalled (cb_id (onConflict (this c)));
                   Warn CHECK_WARNING]
        /\ run_steps (repeat Tick n) (snd r) = (repeat (Ok tt) n, snd r)).
Proof.
  intros c h n A F G Hi r. subst r.
  rewrite periodicCheck_evicts by (auto using isSentinel_false).
  simpl. split; [reflexivity|].
  unfold timers_after_eviction. rewrite Hi. simpl. split.
  - intros ->. split; [|split; [|reflexivity]].
    + rewrite filter_In. intros [_ H]. now rewrite Nat.eqb_refl in H.
    + intros h' Hne. rewrite filter_In. split; [tauto|].
      intros H. split; [exact H|].
      apply Bool.negb_true_iff. destruct h' as [|m]; [reflexivity|].
      apply Nat.eqb_neq. congruence.
  - intros ->. split; [reflexivity|]. split; [reflexivity|].
    apply ticks_evicted. reflexivity.
Qed.

Lemma eviction_stops_own_timer_only_witness :
  let c := on_world (set_storage []) activeInstance in
  timers (world (snd (periodicCheck c))) = []
  /\ events (world (snd (periodicCheck c))) = [ConflictCalled 7].
Proof.
  assert (Hv : ls_getItem (claimKeyOf "a") [] <> Some SENTINEL) by discriminate.
  destruct (eviction_stops_own_timer_only
              (on_world (set_storage []) activeInstance) 0 0
              eq_refl eq_refl Hv eq_refl) as (_ & H & _).
  destruct (H eq_refl) as (_ & _ & He).
  split; [reflexivity | exact He].
Defined.

(** X4: the [beforeunload] listener never throws; on an active instance
    (removal working) it deletes the instance's own key and nothing else,
    and leaves the timer running; on an evicted instance it changes
    nothing at all. *)
Theorem beforeunload_releases_own_claim_only :
  forall c : Ctx,
    let r := onBeforeUnload c in
    fst r = Ok tt
    /\ this (snd r) = this c
    /\ timers (world (snd r)) = timers (world c)
    /\ events (world (snd r)) = events (world c)
    /\ (isActiveSession (this c) = true ->
        faults (world c) OpRemoveItem = false ->
        ls_getItem (storageKey (this c)) (storage (world (snd r))) = None
        /\ forall k, k <> storageKey (this c) ->
                     ls_getItem k (storage (world (snd r)))
                     = ls_getItem k (storage (world c)))
    /\ (isActiveSession (this c) = false -> snd r = c).
Proof.
  intros c r. subst r. rewrite onBeforeUnload_eq. simpl.
  split; [reflexivity|]. split; [reflexivity|]. split; [reflexivity|].
  split; [reflexivity|]. split.
  - intros A F. rewrite A, F. simpl. split.
    + apply ls_getItem_removeItem.
    + intros k Hk. now apply ls_getItem_removeItem_other.
  - intros A. rewrite A. simpl. destruct c as [a [s f t ts ev sf]].
    reflexivity.
Qed.

Lemma beforeunload_releases_own_claim_only_witness :
  storage (world (snd (onBeforeUnload activeInstance))) = [("projects", "[]")]
  /\ snd (onBeforeUnload evictedInstance) = evictedInstance.
Proof.
  destruct (beforeunload_releases_own_claim_only activeInstance)
    as (_ & _ & _ & _ & Ha & _).
  destruct (Ha eq_refl eq_refl) as (Hk & _).
  destruct (beforeunload_releases_own_claim_only evictedInstance)
    as (_ & _ & _ & _ & _ & He).
  split; [reflexivity | exact (He eq_refl)].
Defined.

(** X5: [loadFromLocalStorage] never throws and never changes the store or
    the instance.  It returns the default value, without logging anything,
    when the key is missing or holds the empty text; it returns the default
    value and logs one warning naming the key when the read throws or the
    stored text does not parse. *)
Theorem load_falls_back_to_default :
  forall (T : Type) (JSON_parse : string -> option T) (key : string) (d : T)
         (c : Ctx),
    let r := loadFromLocalStorage JSON_parse key d c in
    (exists x, fst r = Ok x)
    /\ storage (world (snd r)) = storage (world c)
    /\ this (snd r) = this c
    /\ (faults (world c) OpGetItem = false ->
        ls_getItem key (storage (world c)) = None
        \/ ls_getItem key (storage (world c)) = Some "" ->
        r = (Ok d, c))
    /\ (faults (world c) OpGetItem = true
        \/ (exists v, ls_getItem key (storage (world c)) = Some v
                      /\ v <> "" /\ JSON_parse v = None) ->
        fst r = Ok d
        /\ events (world (snd r))
           = events (world c) ++ [Warn (loadWarning key)]).
Proof.
  intros T JSON_parse key d c r. subst r.
  rewrite loadFromLocalStorage_eq.
  destruct (faults (world c) OpGetItem) eqn:F.
  { simpl. split; [eexists; reflexivity|]. split; [reflexivity|]. split; [reflexivity|].
    split; [discriminate|]. intros _. split; reflexivity. }
  destruct (ls_getItem key (storage (world c))) as [v|] eqn:G.
  2:{ split; [eexists; reflexivity|]. split; [reflexivity|]. split; [reflexivity|].
      split; [reflexivity|].
      intros [H|(v & H & _)]; discriminate. }
  destruct (String.eqb_spec v "") as [->|Hv].
  { split; [eexists; reflexivity|]. split; [reflexivity|]. split; [reflexivity|].
    split; [reflexivity|].
    intros [H|(v & H & Hne & _)]; [discriminate | congruence]. }
  destruct (JSON_parse v) as [x|] eqn:P.
  - split; [eexists; reflexivity|]. split; [reflexivity|]. split; [reflexivity|].
    split; [intros _ [H|H]; congruence|].
    intros [H|(v' & H & _ & P')]; [discriminate | congruence].
  - simpl. split; [eexists; reflexivity|]. split; [reflexivity|]. split; [reflexivity|].
    split; [intros _ [H|H]; congruence|].
    intros _. split; reflexivity.
Qed.

Lemma load_falls_back_to_default_witness :
  loadFromLocalStorage sampleParse "k" false activeInstance
  = (Ok false, activeInstance)
  /\ fst (loadFromLocalStorage sampleParse "projects" false activeInstance)
     = Ok false.
Proof.
  destruct (load_falls_back_to_default bool sampleParse "k" false activeInstance)
    as (_ & _ & _ & Hd & _).
  assert (Hp : exists v, ls_getItem "projects" (storage (world activeInstance))
                         = Some v /\ v <> "" /\ sampleParse v = None).
  { exists "[]". repeat split. discriminate. }
  destruct (load_falls_back_to_default bool sampleParse "projects" false
              activeInstance) as (_ & _ & _ & _ & Hf).
  split; [exact (Hd eq_refl (or_introl eq_refl)) | exact (proj1 (Hf (or_intror Hp)))].
Defined.

(** X6: [saveToLocalStorage] never throws and leaves the instance and the
    console warnings alone.  Either the value was serialised and written
    under the key, with nothing logged, or serialisation or the write
    threw, in which case the store is unchanged and one error naming the
    key is logged. *)
Theorem save_writes_or_logs :
  forall (T : Type) (JSON_stringify : T -> option string) (key : string)
         (v : T) (c : Ctx) (errors : list string),
    let r := saveToLocalStorage JSON_stringify key v c errors in
    fst (fst r) = Ok tt
    /\ this (snd (fst r)) = this c
    /\ events (world (snd (fst r))) = events (world c)
    /\ ((exists text, JSON_stringify v = Some text
                      /\ faults (world c) OpSetItem = false
                      /\ storage (world (snd (fst r)))
                         = ls_setItem key text (storage (world c))
                      /\ snd r = errors)
        \/ ((JSON_stringify v = None \/ faults (world c) OpSetItem = true)
            /\ storage (world (snd (fst r))) = storage (world c)
            /\ snd r = errors ++ [saveError key])).
Proof.
  intros T JSON_stringify key v c errors r. subst r.
  rewrite saveToLocalStorage_eq.
  destruct (JSON_stringify v) as [text|] eqn:S.
  - destruct (faults (world c) OpSetItem) eqn:F; simpl.
    + repeat split. right. auto.
    + repeat split. left. exists text. auto.
  - simpl. repeat split. right. auto.
Qed.

Lemma load_after_setItem {T : Type} (JSON_parse : string -> option T)
      (key text : string) (v d : T) (c : Ctx) :
  text <> "" ->
  JSON_parse text = Some v ->
  faults (world c) OpGetItem = false ->
  let c' := on_world (set_storage (ls_setItem key text (storage (world c)))) c in
  loadFromLocalStorage JSON_parse key d c' = (Ok v, c').
Proof.
  intros Hne P FG c'. subst c'.
  rewrite loadFromLocalStorage_eq. simpl. rewrite FG, ls_getItem_setItem.
  destruct (String.eqb_spec text ""); [contradiction|]. now rewrite P.
Qed.

(** X7: what was saved is what is loaded: when the value serialises to a
    non-empty text that parses back to it and the store is readable and
    writable, [loadFromLocalStorage] after [saveToLocalStorage] under the
    same key returns the value, whatever the key held before and whatever
    the default, and logs nothing. *)
Theorem save_then_load_roundtrip :
  forall (T : Type) (JSON_parse : string -> option T)
         (JSON_stringify : T -> option string) (key text : string)
         (v d : T) (c : Ctx) (errors : list string),
    JSON_stringify v = Some text ->
    text <> "" ->
    JSON_parse text = Some v ->
    faults (world c) OpSetItem = false ->
    faults (world c) OpGetItem = false ->
    let saved := saveToLocalStorage JSON_stringify key v c errors in
    snd saved = errors
    /\ loadFromLocalStorage JSON_parse key d (snd (fst saved))
       = (Ok v, snd (fst saved)).
Proof.
  intros T JSON_parse JSON_stringify key text v d c errors S Hne P FS FG saved.
  subst saved. rewrite saveToLocalStorage_eq, S, FS.
  split; [reflexivity|].
  now apply load_after_setItem.
Qed.

Lemma save_then_load_roundtrip_witness :
  let saved := saveToLocalStorage sampleStringify "projects" true
                 activeInstance [] in
  loadFromLocalStorage sampleParse "projects" false (snd (fst saved))
  = (Ok true, snd (fst saved)).
Proof.
  assert (Hne : "true" <> "") by discriminate.
  exact (proj2 (save_then_load_roundtrip bool sampleParse sampleStringify
                  "projects" "true" true false activeInstance []
                  eq_refl Hne eq_refl eq_refl eq_refl)).
Defined.

(** X8: saving under one key leaves the entry of every other key as it
    was, so a later load of another key returns what it returned before;
    and saving under an application key leaves the claim keys of the
    session managers as they were. *)
Theorem save_leaves_other_keys :
  forall (T U : Type) (JSON_stringify : T -> option string)
         (JSON_parse : string -> option U) (key key' : string)
         (v : T) (d : U) (c : Ctx) (errors : list string),
    let c' := snd (fst (saveToLocalStorage JSON_stringify key v c errors)) in
    (key' <> key ->
     ls_getItem key' (storage (world c')) = ls_getItem key' (storage (world c))
     /\ fst (loadFromLocalStorage JSON_parse key' d c')
        = fst (loadFromLocalStorage JSON_parse key' d c))
    /\ (appKey key ->
        claimKeys (storage (world c')) = claimKeys (storage (world c))).
Proof.
  intros T U JSON_stringify JSON_parse key key' v d c errors c'. subst c'.
  rewrite saveToLocalStorage_eq.
  destruct c as [a [s f t ts ev sf]].
  destruct (JSON_stringify v) as [text|]; simpl.
  2:{ split; [intros _; split; reflexivity | reflexivity]. }
  destruct (f OpSetItem) eqn:F; simpl.
  { split; [intros _; split; [reflexivity|] | reflexivity].
    rewrite !loadFromLocalStorage_eq. simpl.
    destruct (f OpGetItem); [reflexivity|].
    destruct (ls_getItem key' s) as [x|]; [|reflexivity].
    destruct (String.eqb x ""); [reflexivity|].
    destruct (JSON_parse x); reflexivity. }
  split.
  - intros Hne.
    pose proof (ls_getItem_setItem_other key' key text s Hne) as H.
    split; [exact H|].
    rewrite !loadFromLocalStorage_eq. simpl. rewrite H.
    destruct (f OpGetItem); [reflexivity|].
    destruct (ls_getItem key' s) as [x|]; [|reflexivity].
    destruct (String.eqb x ""); [reflexivity|].
    destruct (JSON_parse x); reflexivity.
  - intros Hk. apply claimKeys_setItem_other. now apply appKey_not_claim.
Qed.

Lemma save_leaves_other_keys_witness :
  let c' := snd (fst (saveToLocalStorage sampleStringify
                        LOCAL_STORAGE_COLLABORATORS true activeInstance [])) in
  ls_getItem (claimKeyOf "a") (storage (world c')) = Some "active"
  /\ claimKeys (storage (world c')) = [claimKeyOf "a"].
Proof.
  destruct (save_leaves_other_keys bool bool sampleStringify sampleParse
              LOCAL_STORAGE_COLLABORATORS (claimKeyOf "a") true false
              activeInstance []) as (H1 & H2).
  assert (Hne : claimKeyOf "a" <> LOCAL_STORAGE_COLLABORATORS) by discriminate.
  split; [exact (proj1 (H1 Hne)) | exact (H2 appKey_collaborators)].
Defined.

(** ** Fenced blocks in model responses *)

Section FencedBlocks.

Lemma rmatch_RLit {X : Type} (c : N) (cs s : JSString) (cap : option JSString)
      (k : JSString -> option JSString -> option X) :
  rmatch (RLit c cs) s cap k
  = if startsWith (c :: cs) s then k (skipn (length (c :: cs)) s) cap else None.
Proof.
  revert c s. induction cs as [|d cs IH]; intros c s.
  - destruct s as [|x s]; simpl; [reflexivity|].
    destruct (N.eqb c x); reflexivity.
  - destruct s as [|x s]; [reflexivity|].
    simpl rmatch. simpl startsWith.
    destruct (N.eqb c x); [|reflexivity].
    rewrite IH. reflexivity.
Qed.

Lemma starGreedy_prefix {X : Type} (p : N -> bool) (ws rest : JSString)
      (k : JSString -> option X) (x : X) :
  Forall (fun c => p c = true) ws ->
  match rest with c :: _ => p c = false | [] => True end ->
  k rest = Some x ->
  starGreedy p (ws ++ rest) k = Some x.
Proof.
  intros Hws Hrest Hk. induction Hws as [|c ws Hc _ IH]; simpl.
  - destruct rest as [|c rest]; [exact Hk|]. simpl. now rewrite Hrest.
  - now rewrite Hc, IH.
Qed.

Lemma startsWith_FENCE_other (c : N) (s : JSString) :
  c <> BACKTICK -> startsWith FENCE (c :: s) = false.
Proof.
  intros H. unfold FENCE. cbn [startsWith].
  destruct (N.eqb_spec BACKTICK c) as [E|_]; [congruence | reflexivity].
Qed.

(** Between the fences the lazy capture cannot stop early: what is left of
    a body that ends in a non-space unit and holds no backtick is never
    white space followed by a fence. *)
Lemma closing_fence_not_in_body {X : Type} (todo rest : JSString)
      (k : JSString -> option X) :
  todo <> [] ->
  Forall (fun c => c <> BACKTICK) todo ->
  isWhiteSpace (last todo 0%N) = false ->
  (forall s4, startsWith FENCE s4 = false -> k s4 = None) ->
  starGreedy isWhiteSpace (todo ++ rest) k = None.
Proof.
  intros Hne Hbt Hlast Hk.
  induction todo as [|c todo IH]; [congruence|].
  assert (Hc : k ((c :: todo) ++ rest) = None).
  { apply Hk. inversion Hbt as [|? ? Hcb _]; subst.
    now apply startsWith_FENCE_other. }
  simpl. destruct (isWhiteSpace c) eqn:W; [|exact Hc].
  destruct todo as [|d todo].
  - simpl in Hlast. congruence.
  - rewrite IH; [exact Hc | discriminate | now inversion Hbt | exact Hlast].
Qed.

Lemma starLazy_body {X : Type} (body rest : JSString)
      (k : JSString -> option X) (x : X) :
  (forall done todo, body = done ++ todo -> todo <> [] ->
                     k (todo ++ rest) = None) ->
  k rest = Some x ->
  starLazy anyUnit (body ++ rest) k = Some x.
Proof.
  intros Hfail Hk. induction body as [|c body IH].
  - simpl. destruct rest; simpl; now rewrite Hk.
  - assert (H0 : k (c :: body ++ rest) = None)
      by (apply (Hfail [] (c :: body) eq_refl); discriminate).
    simpl. rewrite H0. apply IH. intros done todo E Hne.
    apply (Hfail (c :: done) todo); [now rewrite E | exact Hne].
Qed.

Lemma fence_not_ws : isWhiteSpace BACKTICK = false.
Proof. reflexivity. Qed.

Lemma startsWith_FENCE_app (post : JSString) :
  startsWith FENCE (FENCE ++ post) = true.
Proof. reflexivity. Qed.

Lemma last_app_nonempty (a b : JSString) (d : N) :
  b <> [] -> last (a ++ b) d = last b d.
Proof.
  intros Hb. induction a as [|x a IH]; [reflexivity|].
  simpl. destruct (a ++ b) eqn:E; [|exact IH].
  apply app_eq_nil in E. destruct E. contradiction.
Qed.

(** The tail of the expression, from the white space after the optional
    tag on, run on a body and its closing fence. *)
Lemma fenced_tail_captures (ws1 body ws2 post : JSString)
      (cap : option JSString) :
  Forall (fun c => isWhiteSpace c = true) ws1 ->
  Forall (fun c => isWhiteSpace c = true) ws2 ->
  Forall (fun c => c <> BACKTICK) body ->
  isWhiteSpace (hd 0%N body) = false ->
  isWhiteSpace (last body 0%N) = false ->
  body <> [] ->
  rmatch (RSeq (RStar isWhiteSpace)
            (RSeq (RGroup (RLazyStar anyUnit))
               (RSeq (RStar isWhiteSpace)
                  (RLit BACKTICK [BACKTICK; BACKTICK]))))
    (ws1 ++ body ++ ws2 ++ FENCE ++ post) cap (fun _ cap' => Some cap')
  = Some (Some body).
Proof.
  intros Hws1 Hws2 Hbt Hhd Hlast Hne.
  cbn [rmatch].
  apply starGreedy_prefix; [exact Hws1 | |].
  { destruct body as [|b0 body']; [congruence | exact Hhd]. }
  apply starLazy_body.
  - intros done todo E Hto.
    apply closing_fence_not_in_body.
    + exact Hto.
    + rewrite E in Hbt. apply Forall_app in Hbt. tauto.
    + rewrite E in Hlast. now rewrite last_app_nonempty in Hlast.
    + intros s4 H4. rewrite rmatch_RLit.
      change (startsWith [BACKTICK; BACKTICK; BACKTICK] s4)
        with (startsWith FENCE s4). now rewrite H4.
  - erewrite starGreedy_prefix; [reflexivity | exact Hws2 | reflexivity |].
    rewrite rmatch_RLit.
    change (startsWith [BACKTICK; BACKTICK; BACKTICK] (FENCE ++ post))
      with (startsWith FENCE (FENCE ++ post)).
    rewrite startsWith_FENCE_app.
    f_equal. f_equal.
    replace (length (body ++ ws2 ++ FENCE ++ post)
             - length (ws2 ++ FENCE ++ post)) with (length body)
      by (rewrite (length_app body); lia).
    rewrite firstn_app, firstn_all, Nat.sub_diag. simpl.
    now rewrite app_nil_r.
Qed.

Lemma no_fence_no_match {X : Type} (s : JSString) (cap : option JSString)
      (k : JSString -> option JSString -> option X) :
  startsWith FENCE s = false -> rmatch FENCED_BLOCK s cap k = None.
Proof.
  intros H. unfold FENCED_BLOCK.
  change (rmatch (RSeq ?a ?b) s cap k)
    with (rmatch a s cap (fun s' cap' => rmatch b s' cap' k)).
  rewrite rmatch_RLit.
  change (startsWith [BACKTICK; BACKTICK; BACKTICK] s) with (startsWith FENCE s).
  now rewrite H.
Qed.

Lemma regexExec_skips_prefix (pre s : JSString) :
  Forall (fun c => c <> BACKTICK) pre ->
  regexExec FENCED_BLOCK (pre ++ s) = regexExec FENCED_BLOCK s.
Proof.
  intros Hpre. induction Hpre as [|c pre Hc _ IH]; [reflexivity|].
  change ((c :: pre) ++ s) with (c :: (pre ++ s)).
  cbn [regexExec]. rewrite no_fence_no_match; [exact IH|].
  now apply startsWith_FENCE_other.
Qed.

Lemma regexExec_no_fence (s : JSString) :
  includes FENCE s = false -> regexExec FENCED_BLOCK s = None.
Proof.
  induction s as [|c s IH]; intros H.
  - reflexivity.
  - cbn [includes] in H. apply orb_false_iff in H. destruct H as [H1 H2].
    cbn [regexExec]. rewrite no_fence_no_match by exact H1. now apply IH.
Qed.

Lemma regexExec_here (r : Regex) (s : JSString) (cap : option JSString) :
  rmatch r s None (fun _ cap' => Some cap') = Some cap ->
  regexExec r s = Some cap.
Proof. intros H. destruct s; simpl; now rewrite H. Qed.

Lemma ws_not_j (c : N) : isWhiteSpace c = true -> N.eqb 106 c = false.
Proof.
  intros H. destruct (N.eqb_spec 106 c) as [<-|]; [discriminate H | reflexivity].
Qed.

(** The optional tag: taken when it is there, skipped when the text goes
    on with anything but the letter j. *)
Lemma optional_tag {X : Type} (tag rest : JSString) (cap : option JSString)
      (k : JSString -> option JSString -> option X) (x : X) :
  tag = ofAscii "json" \/ (tag = [] /\ N.eqb 106 (hd 0%N rest) = false) ->
  k rest cap = Some x ->
  rmatch (ROpt (RLit 106 [115; 111; 110]%N)) (tag ++ rest) cap k = Some x.
Proof.
  intros [->|[-> Hj]] Hk; cbn [rmatch]; rewrite rmatch_RLit.
  - change (startsWith [106; 115; 111; 110]%N (ofAscii "json" ++ rest))
      with true.
    change (skipn (length [106; 115; 111; 110]%N) (ofAscii "json" ++ rest))
      with rest.
    cbv iota. now rewrite Hk.
  - simpl app.
    assert (Hs : startsWith [106; 115; 111; 110]%N rest = false).
    { destruct rest as [|c rest]; [reflexivity|]. cbn [hd] in Hj.
      cbn [startsWith]. now rewrite Hj. }
    now rewrite Hs.
Qed.

Lemma fenced_tail_empty (ws post : JSString) (cap : option JSString) :
  Forall (fun c => isWhiteSpace c = true) ws ->
  rmatch (RSeq (RStar isWhiteSpace)
            (RSeq (RGroup (RLazyStar anyUnit))
               (RSeq (RStar isWhiteSpace)
                  (RLit BACKTICK [BACKTICK; BACKTICK]))))
    (ws ++ FENCE ++ post) cap (fun _ cap' => Some cap')
  = Some (Some []).
Proof.
  intros Hws. cbn [rmatch].
  apply starGreedy_prefix; [exact Hws | reflexivity |].
  change (FENCE ++ post) with (BACKTICK :: BACKTICK :: BACKTICK :: post).
  cbn [starLazy starGreedy]. rewrite fence_not_ws, rmatch_RLit.
  cbn [startsWith]. rewrite !N.eqb_refl. simpl.
  now rewrite Nat.sub_diag.
Qed.

Lemma fenced_block_at (tag rest' : JSString) (cap : option JSString) :
  rmatch (RSeq (ROpt (RLit 106 [115; 111; 110]%N))
            (RSeq (RStar isWhiteSpace)
               (RSeq (RGroup (RLazyStar anyUnit))
                  (RSeq (RStar isWhiteSpace)
                     (RLit BACKTICK [BACKTICK; BACKTICK])))))
    (tag ++ rest') None (fun _ cap' => Some cap') = Some cap ->
  regexExec FENCED_BLOCK (FENCE ++ tag ++ rest') = Some cap.
Proof.
  intros H. apply regexExec_here. unfold FENCED_BLOCK.
  change (rmatch (RSeq ?a ?b) ?s None ?k)
    with (rmatch a s None (fun s' cap' => rmatch b s' cap' k)) at 1.
  rewrite rmatch_RLit.
  change (startsWith [BACKTICK; BACKTICK; BACKTICK] (FENCE ++ tag ++ rest'))
    with true.
  change (skipn (length [BACKTICK; BACKTICK; BACKTICK]) (FENCE ++ tag ++ rest'))
    with (tag ++ rest').
  exact H.
Qed.

End FencedBlocks.

(** X9: a response without any triple backtick is parsed as a whole, after
    trimming; a [SyntaxError] of [JSON.parse] is passed on to the caller. *)
Theorem unfenced_response_is_parsed_whole :
  forall (J : Type) (JSON_parse : JSString -> option J) (text : JSString),
    includes FENCE (trim text) = false ->
    extractJsonFromResponse JSON_parse text
    = match JSON_parse (trim text) with
      | Some j => Ok j
      | None => Throw "SyntaxError"
      end.
Proof.
  intros J JSON_parse text H. unfold extractJsonFromResponse.
  now rewrite regexExec_no_fence.
Qed.

Lemma unfenced_response_is_parsed_whole_witness :
  extractJsonFromResponse (fun s => Some (length s)) (ofAscii "  [1, 2] ")
  = Ok 6.
Proof.
  exact (unfenced_response_is_parsed_whole nat (fun s => Some (length s))
           (ofAscii "  [1, 2] ") eq_refl).
Defined.

(** X10: the first fenced block of a response is unwrapped: when the
    trimmed text holds, after some text without backticks, an opening
    fence, an optional [json] tag (or no tag and a body that does not begin
    with the letter j), a non-empty body without backticks that neither
    begins nor ends with white space, and a closing fence, then exactly the
    body is handed to [JSON.parse], whatever surrounds the block and
    whatever follows it. *)
Theorem fenced_response_is_unwrapped :
  forall (J : Type) (JSON_parse : JSString -> option J)
         (text pre tag ws1 body ws2 post : JSString),
    trim text = pre ++ FENCE ++ tag ++ ws1 ++ body ++ ws2 ++ FENCE ++ post ->
    Forall (fun c => c <> BACKTICK) pre ->
    tag = ofAscii "json" \/ (tag = [] /\ hd 0%N body <> 106%N) ->
    Forall (fun c => isWhiteSpace c = true) ws1 ->
    Forall (fun c => isWhiteSpace c = true) ws2 ->
    Forall (fun c => c <> BACKTICK) body ->
    body <> [] ->
    isWhiteSpace (hd 0%N body) = false ->
    isWhiteSpace (last body 0%N) = false ->
    extractJsonFromResponse JSON_parse text
    = match JSON_parse body with
      | Some j => Ok j
      | None => Throw "SyntaxError"
      end.
Proof.
  intros J JSON_parse text pre tag ws1 body ws2 post E Hpre Htag Hws1 Hws2
         Hbody Hne Hhd Hlast.
  unfold extractJsonFromResponse. rewrite E.
  rewrite regexExec_skips_prefix by exact Hpre.
  rewrite (fenced_block_at tag (ws1 ++ body ++ ws2 ++ FENCE ++ post) (Some body)).
  - destruct body as [|b0 body']; [congruence | reflexivity].
  - apply optional_tag.
    + destruct Htag as [->|[-> Hj]]; [now left | right].
      split; [reflexivity|].
      destruct ws1 as [|w ws1'].
      * destruct body as [|b0 body']; [congruence|]. cbn [app hd] in *.
        apply N.eqb_neq. congruence.
      * cbn [app hd]. apply ws_not_j. now inversion Hws1.
    + apply (fenced_tail_captures ws1 body ws2 post None); assumption.
Qed.

Lemma fenced_response_is_unwrapped_witness :
  extractJsonFromResponse (fun s => Some (length s))
    (ofAscii "Here you go: ```json {} ``` and ```more```")
  = Ok 2.
Proof.
  assert (Hj : ofAscii "json" = ofAscii "json"
               \/ (ofAscii "json" = [] /\ hd 0%N (ofAscii "{}") <> 106%N))
    by (left; reflexivity).
  assert (Hne : ofAscii "{}" <> []) by discriminate.
  assert (Hpre : Forall (fun c => c <> BACKTICK) (ofAscii "Here you go: "))
    by (repeat constructor; discriminate).
  assert (Hb : Forall (fun c => c <> BACKTICK) (ofAscii "{}"))
    by (repeat constructor; discriminate).
  assert (Hw : Forall (fun c => isWhiteSpace c = true) (ofAscii " "))
    by (repeat constructor).
  exact (fenced_response_is_unwrapped nat (fun s => Some (length s))
           (ofAscii "Here you go: ```json {} ``` and ```more```")
           (ofAscii "Here you go: ") (ofAscii "json") (ofAscii " ")
           (ofAscii "{}") (ofAscii " ") (ofAscii " and ```more```")
           eq_refl Hpre Hj Hw Hw Hb Hne eq_refl eq_refl).
Defined.

(** X11: an empty fenced block is not unwrapped: when the first fence is
    closed with nothing but white space in between, the capture is empty,
    and the whole trimmed text, fences included, is handed to
    [JSON.parse]. *)
Theorem empty_fenced_block_is_not_unwrapped :
  forall (J : Type) (JSON_parse : JSString -> option J)
         (text pre tag ws post : JSString),
    trim text = pre ++ FENCE ++ tag ++ ws ++ FENCE ++ post ->
    Forall (fun c => c <> BACKTICK) pre ->
    tag = ofAscii "json" \/ tag = [] ->
    Forall (fun c => isWhiteSpace c = true) ws ->
    extractJsonFromResponse JSON_parse text
    = match JSON_parse (trim text) with
      | Some j => Ok j
      | None => Throw "SyntaxError"
      end.
Proof.
  intros J JSON_parse text pre tag ws post E Hpre Htag Hws.
  unfold extractJsonFromResponse. rewrite E at 1.
  rewrite regexExec_skips_prefix by exact Hpre.
  rewrite (fenced_block_at tag (ws ++ FENCE ++ post) (Some [])).
  - reflexivity.
  - apply optional_tag.
    + destruct Htag as [->| ->]; [now left | right].
      split; [reflexivity|].
      destruct ws as [|w ws']; [reflexivity|].
      cbn [app hd]. apply ws_not_j. now inversion Hws.
    + apply (fenced_tail_empty ws post None); assumption.
Qed.

Lemma empty_fenced_block_is_not_unwrapped_witness :
  extractJsonFromResponse (fun s => Some (length s)) (ofAscii "```json ```")
  = Ok 11.
Proof.
  assert (Hw : Forall (fun c => isWhiteSpace c = true) (ofAscii " "))
    by (repeat constructor).
  exact (empty_fenced_block_is_not_unwrapped nat (fun s => Some (length s))
           (ofAscii "```json ```") [] (ofAscii "json") (ofAscii " ") []
           eq_refl (Forall_nil _) (or_introl eq_refl) Hw).
Defined.

(** ** Sorting requests *)

(** X12: a click on a column header always sorts by that column; clicking
    the same header again flips the direction, so that a third click gives
    what the first gave; clicking another header afterwards sorts that one
    ascending; and only the sorted column gets a sort class. *)
Theorem requestSort_flips_on_repeat :
  forall (k : string) (cfg : option SortConfig),
    let once := requestSort k cfg in
    option_map key once = Some k
    /\ requestSort k once <> once
    /\ requestSort k (requestSort k once) = once
    /\ (getSortClassFor k once = "ascending"
        \/ getSortClassFor k once = "descending")
    /\ (forall k', k' <> k ->
                   requestSort k' once = Some (mkSortConfig k' ascending)
                   /\ getSortClassFor k' once = "").
Proof.
  intros k cfg once. subst once. unfold requestSort, getSortClassFor. simpl.
  rewrite !String.eqb_refl.
  split; [reflexivity|].
  destruct cfg as [[k0 [|]]|]; simpl;
    try destruct (String.eqb k0 k); simpl; rewrite ?String.eqb_refl;
    (split; [discriminate|]); (split; [reflexivity|]); (split; [auto|]);
    intros k' Hne; (destruct (String.eqb_spec k k'); [congruence|]); auto.
Qed.

Lemma requestSort_flips_on_repeat_witness :
  requestSort "url" (requestSort "name" None)
  = Some (mkSortConfig "url" ascending)
  /\ getSortClassFor "url" (requestSort "name" None) = "".
Proof.
  assert (Hne : "url" <> "name") by discriminate.
  exact (proj2 (proj2 (proj2 (proj2
           (requestSort_flips_on_repeat "name" None)))) "url" Hne).
Defined.

(** ** Collaborators and projects *)

Section Pages.

Lemma jsstring_eqb_eq (a b : JSString) : jsstring_eqb a b = true <-> a = b.
Proof.
  unfold jsstring_eqb. destruct (list_eq_dec N.eq_dec a b); split;
    congruence.
Qed.

Lemma jsstring_eqb_neq (a b : JSString) : jsstring_eqb a b = false <-> a <> b.
Proof.
  unfold jsstring_eqb. destruct (list_eq_dec N.eq_dec a b); split;
    congruence.
Qed.

Lemma jsstring_eqb_refl (a : JSString) : jsstring_eqb a a = true.
Proof. now apply jsstring_eqb_eq. Qed.

Lemma no_such_email (e : JSString) (l : list Collaborator.t) :
  existsb (fun c => jsstring_eqb (Collaborator.email c) e) l = false ->
  ~ In e (map Collaborator.email l).
Proof.
  induction l as [|c l IH]; simpl; [tauto|].
  intros H. apply orb_false_iff in H. destruct H as [H1 H2].
  apply jsstring_eqb_neq in H1. intros [E|I]; [congruence | now apply IH].
Qed.

(** Dropping collaborators cannot make two addresses equal. *)
Lemma distinct_emails_filter (keep : Collaborator.t -> bool)
      (cs : list Collaborator.t) :
  NoDup (map Collaborator.email cs) ->
  NoDup (map Collaborator.email (filter keep cs)).
Proof.
  intros Hnd. induction cs as [|c cs IH]; [constructor|].
  apply NoDup_cons_iff in Hnd. destruct Hnd as [Hc Hcs].
  cbn [filter]. destruct (keep c); [|now apply IH].
  cbn [map]. apply NoDup_cons; [|now apply IH].
  intros Hin. apply Hc. apply in_map_iff in Hin.
  destruct Hin as (c' & E & Hc'). apply filter_In in Hc'.
  apply in_map_iff. exists c'. tauto.
Qed.

End Pages.

Lemma handleAddCollaborator_list
      (JSON_stringify : list Collaborator.t -> option string)
      (nowText isoNow1 isoNow2 : JSString) (st : SettingsState) (b : Browser) :
  let after :=
    collaborators
      (fst (handleAddCollaborator JSON_stringify nowText isoNow1 isoNow2 st b)) in
  after = collaborators st
  \/ (length (collaborators st) < MAX_COLLABORATORS
      /\ ~ In (trim (newCollaboratorEmail st))
             (map Collaborator.email (collaborators st))
      /\ exists c, Collaborator.email c = trim (newCollaboratorEmail st)
                   /\ after = collaborators st ++ [c]).
Proof.
  intros after. subst after. unfold handleAddCollaborator.
  destruct (jsstring_eqb (trim (newCollaboratorEmail st)) []
            || negb (regexTest EMAIL_SHAPE (newCollaboratorEmail st)));
    [now left|].
  destruct (Nat.leb_spec MAX_COLLABORATORS (length (collaborators st)));
    [now left|].
  destruct (existsb (fun c => jsstring_eqb (Collaborator.email c)
                                (trim (newCollaboratorEmail st)))
                    (collaborators st)) eqn:Edup; [now left|].
  right. split; [assumption|]. split; [now apply no_such_email|].
  eexists. split; [|reflexivity]. reflexivity.
Qed.

(** X13: [handleAddCollaborator] either rejects, and then only the error
    message changes (nothing is saved, the typed address stays), or
    accepts, and then the list had room, the trimmed address is not blank
    and was not in the list, the new collaborator is appended last under
    the trimmed address, the field and the error are cleared, and the new
    list is saved under the collaborators key. *)
Theorem add_collaborator_rejects_or_appends :
  forall (JSON_stringify : list Collaborator.t -> option string)
         (nowText isoNow1 isoNow2 : JSString)
         (st : SettingsState) (b : Browser),
    let r := handleAddCollaborator JSON_stringify nowText isoNow1 isoNow2 st b in
    let entered := trim (newCollaboratorEmail st) in
    (collaborators (fst r) = collaborators st
     /\ newCollaboratorEmail (fst r) = newCollaboratorEmail st
     /\ snd r = b
     /\ In (error (fst r))
          [INVALID_EMAIL_MESSAGE; TOO_MANY_MESSAGE; DUPLICATE_MESSAGE])
    \/ (length (collaborators st) < MAX_COLLABORATORS
        /\ entered <> []
        /\ ~ In entered (map Collaborator.email (collaborators st))
        /\ collaborators (fst r)
           = collaborators st
               ++ [Collaborator.mk (ofAscii "collab_" ++ nowText) entered
                     isoNow1 (Some 0%N) (Some isoNow2)]
        /\ newCollaboratorEmail (fst r) = []
        /\ error (fst r) = []
        /\ snd r = saveInBrowser JSON_stringify LOCAL_STORAGE_COLLABORATORS
                     (collaborators (fst r)) b).
Proof.
  intros JSON_stringify nowText isoNow1 isoNow2 st b r entered. subst r entered.
  unfold handleAddCollaborator.
  destruct (jsstring_eqb (trim (newCollaboratorEmail st)) []) eqn:Eblank;
    cbn [orb].
  { left. repeat split. simpl. auto. }
  destruct (regexTest EMAIL_SHAPE (newCollaboratorEmail st)); cbn [negb].
  2:{ left. repeat split. simpl. auto. }
  destruct (Nat.leb_spec MAX_COLLABORATORS (length (collaborators st)))
    as [Hfull|Hroom].
  { left. repeat split. simpl. auto. }
  destruct (existsb (fun c => jsstring_eqb (Collaborator.email c)
                                (trim (newCollaboratorEmail st)))
                    (collaborators st)) eqn:Edup.
  { left. repeat split. simpl. auto. }
  right. simpl.
  split; [exact Hroom|]. split; [now apply jsstring_eqb_neq|].
  split; [now apply no_such_email|]. repeat split.
Qed.

(** X14: the two handlers of the settings page keep the list within
    [MAX_COLLABORATORS] entries and its addresses pairwise distinct; a
    confirmed deletion removes every collaborator with the given
    identifier and keeps the others in their order, a declined one
    changes nothing and saves nothing. *)
Theorem collaborators_stay_bounded_and_distinct :
  forall (JSON_stringify : list Collaborator.t -> option string)
         (nowText isoNow1 isoNow2 collaboratorId : JSString) (confirmed : bool)
         (st : SettingsState) (b : Browser),
    length (collaborators st) <= MAX_COLLABORATORS ->
    NoDup (map Collaborator.email (collaborators st)) ->
    let added :=
      fst (handleAddCollaborator JSON_stringify nowText isoNow1 isoNow2 st b) in
    let deleted :=
      handleDeleteCollaborator JSON_stringify confirmed collaboratorId st b in
    length (collaborators added) <= MAX_COLLABORATORS
    /\ NoDup (map Collaborator.email (collaborators added))
    /\ length (collaborators (fst deleted)) <= MAX_COLLABORATORS
    /\ NoDup (map Collaborator.email (collaborators (fst deleted)))
    /\ (confirmed = true ->
        collaborators (fst deleted)
        = filter (fun c => negb (jsstring_eqb (Collaborator.id c) collaboratorId))
                 (collaborators st)
        /\ forall c, In c (collaborators (fst deleted)) ->
                     Collaborator.id c <> collaboratorId)
    /\ (confirmed = false -> deleted = (st, b)).
Proof.
  intros JSON_stringify nowText isoNow1 isoNow2 collaboratorId confirmed st b
         Hlen Hnd added deleted.
  split; [|split].
  - subst added.
    destruct (handleAddCollaborator_list JSON_stringify nowText isoNow1
                isoNow2 st b) as [E|(Hroom & _ & c & _ & E)];
      rewrite E; [exact Hlen|].
    rewrite length_app. simpl. lia.
  - subst added.
    destruct (handleAddCollaborator_list JSON_stringify nowText isoNow1
                isoNow2 st b) as [E|(_ & Hnew & c & Hc & E)];
      rewrite E; [exact Hnd|].
    rewrite map_app. simpl. rewrite Hc.
    apply NoDup_app; [exact Hnd | repeat constructor; simpl; tauto |].
    intros x Hx [<-|[]]. now apply Hnew.
  - subst deleted. unfold handleDeleteCollaborator.
    destruct confirmed; simpl.
    + split; [|split; [|split; [|discriminate]]].
      * etransitivity; [apply filter_length_le | exact Hlen].
      * now apply distinct_emails_filter.
      * intros _. split; [reflexivity|].
        intros c Hc. apply filter_In in Hc. destruct Hc as [_ Hc].
        apply Bool.negb_true_iff, jsstring_eqb_neq in Hc. exact Hc.
    + split; [exact Hlen|]. split; [exact Hnd|]. split; [discriminate|].
      reflexivity.
Qed.

Lemma collaborators_stay_bounded_and_distinct_witness :
  let st := mkSettingsState
              [Collaborator.mk (ofAscii "collab_1") (ofAscii "a@b.c")
                 (ofAscii "2024") (Some 0%N) None]
              (ofAscii " d@e.f ") [] in
  length (collaborators
            (fst (handleAddCollaborator anyText (ofAscii "2") (ofAscii "2025")
                    (ofAscii "2025") st sampleBrowser))) <= MAX_COLLABORATORS
  /\ collaborators
       (fst (handleDeleteCollaborator anyText true (ofAscii "collab_1") st
               sampleBrowser)) = [].
Proof.
  intros st.
  assert (Hlen : length (collaborators st) <= MAX_COLLABORATORS)
    by (simpl; unfold MAX_COLLABORATORS; lia).
  assert (Hnd : NoDup (map Collaborator.email (collaborators st)))
    by (repeat constructor; simpl; tauto).
  destruct (collaborators_stay_bounded_and_distinct anyText (ofAscii "2")
              (ofAscii "2025") (ofAscii "2025") (ofAscii "collab_1") true
              st sampleBrowser Hlen Hnd) as (Ha & _ & _ & _ & Hd & _).
  split; [exact Ha | exact (proj1 (Hd eq_refl))].
Defined.

Section ProjectFacts.

Lemma toggleConnection_id (projectId : JSString) (type : ConnectionType)
      (p : Project.t) :
  Project.id (toggleConnection projectId type p) = Project.id p.
Proof.
  unfold toggleConnection.
  destruct (jsstring_eqb (Project.id p) projectId), type; reflexivity.
Qed.

Lemma toggleConnection_twice (projectId : JSString) (type : ConnectionType)
      (p : Project.t) :
  projectView (toggleConnection projectId type
                 (toggleConnection projectId type p))
  = projectView p.
Proof.
  unfold toggleConnection at 1. rewrite toggleConnection_id.
  unfold toggleConnection.
  destruct (jsstring_eqb (Project.id p) projectId); [|reflexivity].
  destruct p as [i n u c d [[|]|] [[|]|]], type; reflexivity.
Qed.

End ProjectFacts.

(** X15: saving the form while a project is being edited (name not blank)
    rewrites the name, the address and the CMS of the projects carrying
    the edited identifier and nothing else: identifiers, order, creation
    dates and connections are as before, every other project is kept as
    it is, the dialog is closed and no alert is shown. *)
Theorem editing_a_project_keeps_its_identity :
  forall (JSON_stringify : list Project.t -> option string)
         (nowText isoNow : JSString) (st : ProjectsState) (b : Browser)
         (editing : Project.t),
    editingProject st = Some editing ->
    trim (projectName st) <> [] ->
    let r := handleSaveProject JSON_stringify nowText isoNow st b in
    map Project.id (projects (fst r)) = map Project.id (projects st)
    /\ map Project.creationDate (projects (fst r))
       = map Project.creationDate (projects st)
    /\ map Project.gscConnected (projects (fst r))
       = map Project.gscConnected (projects st)
    /\ map Project.gaConnected (projects (fst r))
       = map Project.gaConnected (projects st)
    /\ (forall p, In p (projects st) -> Project.id p <> Project.id editing ->
                  In p (projects (fst r)))
    /\ (forall p, In p (projects (fst r)) -> Project.id p = Project.id editing ->
                  Project.name p = projectName st
                  /\ Project.url p = projectUrl st
                  /\ Project.cms p = projectCms st)
    /\ isModalOpen (fst r) = false
    /\ b_alerts (snd r) = b_alerts b.
Proof.
  intros JSON_stringify nowText isoNow st b editing He Hname r. subst r.
  unfold handleSaveProject. apply jsstring_eqb_neq in Hname.
  rewrite Hname, He. simpl.
  assert (Hkeep : forall {A} (f : Project.t -> A),
    (forall p, f (Project.mk (Project.id p) (projectName st) (projectUrl st)
                    (projectCms st) (Project.creationDate p)
                    (Project.gscConnected p) (Project.gaConnected p)) = f p) ->
    map f (map (fun p =>
                  if jsstring_eqb (Project.id p) (Project.id editing)
                  then Project.mk (Project.id p) (projectName st)
                         (projectUrl st) (projectCms st)
                         (Project.creationDate p) (Project.gscConnected p)
                         (Project.gaConnected p)
                  else p) (projects st))
    = map f (projects st)).
  { intros A f Hf. rewrite map_map. apply map_ext. intros p.
    destruct (jsstring_eqb (Project.id p) (Project.id editing));
      [apply Hf | reflexivity]. }
  split; [apply Hkeep; reflexivity|]. split; [apply Hkeep; reflexivity|].
  split; [apply Hkeep; reflexivity|]. split; [apply Hkeep; reflexivity|].
  split; [|split; [|split; reflexivity]].
  - intros p Hp Hne. apply in_map_iff. exists p. split; [|exact Hp].
    apply jsstring_eqb_neq in Hne. now rewrite Hne.
  - intros p Hp Hid. apply in_map_iff in Hp. destruct Hp as (q & E & _).
    destruct (jsstring_eqb (Project.id q) (Project.id editing)) eqn:Q.
    + subst p. auto.
    + subst p. apply jsstring_eqb_neq in Q. contradiction.
Qed.

Lemma editing_a_project_keeps_its_identity_witness :
  map Project.name
    (projects (fst (handleSaveProject anyText (ofAscii "9") (ofAscii "2025")
                      sampleProjectsState sampleBrowser)))
  = [ofAscii "Boutique"; ofAscii "Blog"]
  /\ map Project.id
       (projects (fst (handleSaveProject anyText (ofAscii "9") (ofAscii "2025")
                         sampleProjectsState sampleBrowser)))
     = [ofAscii "proj_1"; ofAscii "proj_2"].
Proof.
  assert (Hn : trim (projectName sampleProjectsState) <> []) by discriminate.
  destruct (editing_a_project_keeps_its_identity anyText (ofAscii "9")
              (ofAscii "2025") sampleProjectsState sampleBrowser
              (Project.mk (ofAscii "proj_1") (ofAscii "Shop")
                 (ofAscii "https://a.example") (Some shopify)
                 (ofAscii "2024-01-01") None (Some true))
              eq_refl Hn) as (Hid & _).
  split; [reflexivity | exact Hid].
Defined.

(** X16: saving the form with no project being edited appends exactly one
    project, named as typed, not connected to anything, and leaves the
    existing ones as they are; with a blank name (empty or white space
    only) nothing is created or saved, the dialog stays as it is, and one
    alert is shown. *)
Theorem creating_a_project_appends_or_alerts :
  forall (JSON_stringify : list Project.t -> option string)
         (nowText isoNow : JSString) (st : ProjectsState) (b : Browser),
    let r := handleSaveProject JSON_stringify nowText isoNow st b in
    (trim (projectName st) = [] ->
     fst r = st
     /\ b_ctx (snd r) = b_ctx b
     /\ b_errors (snd r) = b_errors b
     /\ b_alerts (snd r) = b_alerts b ++ [NAME_REQUIRED_MESSAGE])
    /\ (trim (projectName st) <> [] ->
        editingProject st = None ->
        projects (fst r)
        = projects st
            ++ [Project.mk (ofAscii "proj_" ++ nowText) (projectName st)
                  (projectUrl st) (projectCms st) isoNow
                  (Some false) (Some false)]
        /\ isModalOpen (fst r) = false
        /\ snd r = saveInBrowser JSON_stringify LOCAL_STORAGE_PROJECTS
                     (projects (fst r)) b).
Proof.
  intros JSON_stringify nowText isoNow st b r. subst r.
  unfold handleSaveProject. split.
  - intros Hblank. rewrite Hblank, jsstring_eqb_refl. simpl. auto.
  - intros Hname Hnone. apply jsstring_eqb_neq in Hname.
    rewrite Hname, Hnone. simpl. auto.
Qed.

Lemma creating_a_project_appends_or_alerts_witness :
  let blank := mkProjectsState sampleProjects true (ofAscii "  ") [] None
                 None false in
  fst (handleSaveProject anyText (ofAscii "9") (ofAscii "2025") blank
         sampleBrowser) = blank
  /\ length (projects
               (fst (handleSaveProject anyText (ofAscii "9") (ofAscii "2025")
                       (mkProjectsState sampleProjects true (ofAscii "New")
                          [] None None false) sampleBrowser))) = 3.
Proof.
  intros blank.
  destruct (creating_a_project_appends_or_alerts anyText (ofAscii "9")
              (ofAscii "2025") blank sampleBrowser) as (Hb & _).
  assert (Hn : trim (ofAscii "New") <> []) by discriminate.
  destruct (creating_a_project_appends_or_alerts anyText (ofAscii "9")
              (ofAscii "2025")
              (mkProjectsState sampleProjects true (ofAscii "New") [] None
                 None false) sampleBrowser) as (_ & Hc).
  destruct (Hc Hn eq_refl) as (Hp & _).
  split; [exact (proj1 (Hb eq_refl)) | now rewrite Hp].
Defined.

(** X17: toggling a connection flips its truthiness on the projects with
    the given identifier and touches neither the other connection nor any
    other field or project; toggling the same connection twice gives back
    every project as the page shows it (a connection that was undefined
    comes back as [false]); the order and the identifiers never change. *)
Theorem toggling_a_connection_twice_restores :
  forall (JSON_stringify : list Project.t -> option string)
         (projectId : JSString) (type : ConnectionType)
         (st : ProjectsState) (b : Browser),
    let r1 := handleToggleConnection JSON_stringify projectId type st b in
    let r2 := handleToggleConnection JSON_stringify projectId type
                (fst r1) (snd r1) in
    map projectView (projects (fst r2)) = map projectView (projects st)
    /\ map Project.id (projects (fst r1)) = map Project.id (projects st)
    /\ (forall p, In p (projects st) -> Project.id p <> projectId ->
                  In p (projects (fst r1)))
    /\ (forall p, In p (projects st) -> Project.id p = projectId ->
          exists q, In q (projects (fst r1))
            /\ Project.name q = Project.name p
            /\ match type with
               | gsc => truthy (Project.gscConnected q)
                        = negb (truthy (Project.gscConnected p))
                        /\ Project.gaConnected q = Project.gaConnected p
               | ga => truthy (Project.gaConnected q)
                       = negb (truthy (Project.gaConnected p))
                       /\ Project.gscConnected q = Project.gscConnected p
               end).
Proof.
  intros JSON_stringify projectId type st b r1 r2. subst r2 r1.
  unfold handleToggleConnection. simpl.
  split; [|split; [|split]].
  - rewrite !map_map. apply map_ext. intros p. apply toggleConnection_twice.
  - rewrite map_map. apply map_ext. intros p. apply toggleConnection_id.
  - intros p Hp Hne. apply in_map_iff. exists p. split; [|exact Hp].
    unfold toggleConnection. apply jsstring_eqb_neq in Hne. now rewrite Hne.
  - intros p Hp Hid. exists (toggleConnection projectId type p).
    split; [now apply in_map|].
    unfold toggleConnection. apply jsstring_eqb_eq in Hid. rewrite Hid.
    destruct type; simpl; split; try split; try reflexivity;
      match goal with |- context [negb ?x] => destruct x end; reflexivity.
Qed.

Lemma toggling_a_connection_twice_restores_witness :
  In (Project.mk (ofAscii "proj_2") (ofAscii "Blog") (ofAscii "https://b.example")
        None (ofAscii "2024-02-01") (Some false) (Some false))
     (projects (fst (handleToggleConnection anyText (ofAscii "proj_1") gsc
                       sampleProjectsState sampleBrowser))).
Proof.
  assert (Hne : ofAscii "proj_2" <> ofAscii "proj_1") by discriminate.
  destruct (toggling_a_connection_twice_restores anyText (ofAscii "proj_1") gsc
              sampleProjectsState sampleBrowser) as (_ & _ & Hk & _).
  apply Hk; [right; left; reflexivity | exact Hne].
Defined.

(** X18: a confirmed deletion removes every project carrying the given
    identifier and keeps the others in their order; it writes the project
    list only, so whatever the store holds under a search-intentions key,
    the deleted project's included, stays there; a declined deletion
    changes nothing and saves nothing. *)
Theorem deleting_a_project_keeps_its_intentions :
  forall (JSON_stringify : list Project.t -> option string)
         (confirmed : bool) (projectId : JSString) (storedUnder : string)
         (st : ProjectsState) (b : Browser),
    let r := handleDeleteProject JSON_stringify confirmed projectId st b in
    (confirmed = true ->
     projects (fst r)
     = filter (fun p => negb (jsstring_eqb (Project.id p) projectId))
              (projects st)
     /\ (forall p, In p (projects (fst r))
                   <-> In p (projects st) /\ Project.id p <> projectId))
    /\ (confirmed = false -> r = (st, b))
    /\ ls_getItem (LOCAL_STORAGE_SEARCH_INTENTIONS_PREFIX ++ storedUnder)%string
         (storage (world (b_ctx (snd r))))
       = ls_getItem (LOCAL_STORAGE_SEARCH_INTENTIONS_PREFIX ++ storedUnder)%string
           (storage (world (b_ctx b))).
Proof.
  intros JSON_stringify confirmed projectId storedUnder st b r. subst r.
  unfold handleDeleteProject. destruct confirmed; simpl.
  - split; [intros _; split; [reflexivity|] | split; [discriminate|]].
    + intros p. rewrite filter_In, Bool.negb_true_iff, jsstring_eqb_neq.
      reflexivity.
    + rewrite saveToLocalStorage_eq.
      destruct (JSON_stringify _) as [text|]; [|reflexivity].
      destruct (faults (world (b_ctx b)) OpSetItem); [reflexivity|].
      simpl. apply ls_getItem_setItem_other. discriminate.
  - split; [discriminate|]. split; reflexivity.
Qed.

Lemma deleting_a_project_keeps_its_intentions_witness :
  map Project.id
    (projects (fst (handleDeleteProject anyText true (ofAscii "proj_1")
                      sampleProjectsState sampleBrowser)))
  = [ofAscii "proj_2"]
  /\ handleDeleteProject anyText false (ofAscii "proj_1") sampleProjectsState
       sampleBrowser = (sampleProjectsState, sampleBrowser).
Proof.
  destruct (deleting_a_project_keeps_its_intentions anyText true
              (ofAscii "proj_1") "proj_1" sampleProjectsState sampleBrowser)
    as (Ht & _).
  destruct (deleting_a_project_keeps_its_intentions anyText false
              (ofAscii "proj_1") "proj_1" sampleProjectsState sampleBrowser)
    as (_ & Hf & _).
  split; [now rewrite (proj1 (Ht eq_refl)) | exact (Hf eq_refl)].
Defined.

(** X19: the page and the store stay in step: if loading the project list
    gave the list shown before a save, a deletion or a connection toggle,
    it gives the list shown after it, provided the store can be read and
    written and the resulting list serialises to a non-empty text that
    parses back to it. *)
Theorem project_actions_keep_store_in_sync :
  forall (JSON_stringify : list Project.t -> option string)
         (JSON_parse : string -> option (list Project.t))
         (action : ProjectsAction) (st : ProjectsState) (b : Browser)
         (text : string),
    let r := runProjectsAction JSON_stringify action st b in
    JSON_stringify (projects (fst r)) = Some text ->
    text <> "" ->
    JSON_parse text = Some (projects (fst r)) ->
    faults (world (b_ctx b)) OpSetItem = false ->
    faults (world (b_ctx b)) OpGetItem = false ->
    projectsInSync JSON_parse st b ->
    projectsInSync JSON_parse (fst r) (snd r).
Proof.
  intros JSON_stringify JSON_parse action st b text r. subst r.
  assert (Hsave : forall updated st0,
    JSON_stringify updated = Some text -> text <> "" ->
    JSON_parse text = Some updated ->
    faults (world (b_ctx b)) OpSetItem = false ->
    faults (world (b_ctx b)) OpGetItem = false ->
    fst (loadFromLocalStorage JSON_parse LOCAL_STORAGE_PROJECTS []
           (b_ctx (snd (saveProjects JSON_stringify updated st0 b))))
    = Ok updated).
  { intros updated st0 S Hne P FS FG. simpl.
    rewrite saveToLocalStorage_eq, S, FS. simpl fst. simpl snd.
    now rewrite (load_after_setItem JSON_parse LOCAL_STORAGE_PROJECTS text
                   updated [] (b_ctx b) Hne P FG). }
  unfold projectsInSync.
  destruct action as [nowText isoNow|confirmed projectId|projectId type];
    simpl runProjectsAction.
  - unfold handleSaveProject.
    destruct (jsstring_eqb (trim (projectName st)) []); [simpl; auto|].
    destruct (editingProject st) as [editing|]; simpl;
      intros S Hne P FS FG _; now apply (Hsave _ st).
  - unfold handleDeleteProject. destruct confirmed; [|simpl; auto].
    simpl. intros S Hne P FS FG _. now apply (Hsave _ st).
  - unfold handleToggleConnection. simpl.
    intros S Hne P FS FG _. now apply (Hsave _ st).
Qed.

Lemma project_actions_keep_store_in_sync_witness :
  let r := runProjectsAction sampleProjectsStringify
             (ToggleConnection (ofAscii "proj_1") gsc)
             sampleProjectsState syncedBrowser in
  projectsInSync sampleProjectsParse (fst r) (snd r)
  /\ ~ projectsInSync sampleProjectsParse (fst r) syncedBrowser
  /\ ls_getItem LOCAL_STORAGE_PROJECTS (storage (world (b_ctx (snd r))))
     = Some "after".
Proof.
  intros r. subst r.
  assert (Hne : "after" <> "") by discriminate.
  split; [|split].
  - exact (project_actions_keep_store_in_sync sampleProjectsStringify
             sampleProjectsParse (ToggleConnection (ofAscii "proj_1") gsc)
             sampleProjectsState syncedBrowser "after"
             eq_refl Hne eq_refl eq_refl eq_refl eq_refl).
  - unfold projectsInSync. vm_compute. intros H. discriminate H.
  - reflexivity.
Defined.

(** ** The profile of the user *)

(** X20: the profile effect shows the stored profile when there is one
    that parses, and then writes nothing; otherwise it shows the default
    profile and saves it.  After a profile update, or after the effect has
    saved the default, running the effect again shows that same profile,
    provided the store can be read and written and the profile serialises
    to a non-empty text that parses back to it. *)
Theorem profile_effect_shows_what_was_saved :
  forall (JSON_parse : string -> option (option UserProfileData))
         (JSON_stringify : UserProfileData -> option string)
         (b : Browser),
    (forall stored profile,
        faults (world (b_ctx b)) OpGetItem = false ->
        ls_getItem LOCAL_STORAGE_USER_PROFILE (storage (world (b_ctx b)))
        = Some stored ->
        stored <> "" ->
        JSON_parse stored = Some (Some profile) ->
        loadProfileEffect JSON_parse JSON_stringify b = (profile, b))
    /\ (faults (world (b_ctx b)) OpGetItem = false ->
        ls_getItem LOCAL_STORAGE_USER_PROFILE (storage (world (b_ctx b))) = None ->
        loadProfileEffect JSON_parse JSON_stringify b
        = (defaultProfile,
           saveInBrowser JSON_stringify LOCAL_STORAGE_USER_PROFILE
             defaultProfile b))
    /\ (forall profile text,
        JSON_stringify profile = Some text ->
        text <> "" ->
        JSON_parse text = Some (Some profile) ->
        faults (world (b_ctx b)) OpSetItem = false ->
        faults (world (b_ctx b)) OpGetItem = false ->
        let updated := handleProfileUpdate JSON_stringify profile b in
        loadProfileEffect JSON_parse JSON_stringify (snd updated)
        = (profile, snd updated)).
Proof.
  intros JSON_parse JSON_stringify [c errs alerts]. simpl.
  split; [|split].
  - intros stored profile FG G Hne P. unfold loadProfileEffect. simpl.
    rewrite loadFromLocalStorage_eq, FG, G.
    destruct (String.eqb_spec stored ""); [contradiction|].
    rewrite P. reflexivity.
  - intros FG G. unfold loadProfileEffect. simpl.
    rewrite loadFromLocalStorage_eq, FG, G. reflexivity.
  - intros profile text S Hne P FS FG.
    unfold loadProfileEffect, handleProfileUpdate, saveInBrowser. simpl.
    rewrite saveToLocalStorage_eq, S, FS. simpl fst. simpl snd.
    now rewrite (load_after_setItem JSON_parse LOCAL_STORAGE_USER_PROFILE text
                   (Some profile) None c Hne P FG).
Qed.

Lemma profile_effect_shows_what_was_saved_witness :
  let codecParse := fun text : string =>
                      if String.eqb text "p" then Some (Some defaultProfile)
                      else None in
  let codecText := fun _ : UserProfileData => Some "p" in
  let first := loadProfileEffect codecParse codecText sampleBrowser in
  fst first = defaultProfile
  /\ loadProfileEffect codecParse codecText
       (snd (handleProfileUpdate codecText defaultProfile sampleBrowser))
     = (defaultProfile,
        snd (handleProfileUpdate codecText defaultProfile sampleBrowser)).
Proof.
  intros codecParse codecText first. subst first.
  destruct (profile_effect_shows_what_was_saved codecParse codecText
              sampleBrowser) as (_ & Hd & Hu).
  assert (Hne : "p" <> "") by discriminate.
  split.
  - now rewrite (Hd eq_refl eq_refl).
  - exact (Hu defaultProfile "p" eq_refl Hne eq_refl eq_refl eq_refl).
Defined.

(** X21: while the instance's key holds the sentinel and reads work, any
    number of periodic checks return normally and change nothing: the
    instance stays active and its callback is not called. *)
Theorem claimed_instance_stays_active :
  forall (c : Ctx) (n : nat),
    isActiveSession (this c) = true ->
    faults (world c) OpGetItem = false ->
    ls_getItem (storageKey (this c)) (storage (world c)) = Some SENTINEL ->
    run_steps (repeat Tick n) c = (repeat (Ok tt) n, c).
Proof.
  intros c n A F G. induction n as [|n IH]; [reflexivity|].
  simpl. rewrite periodicCheck_still_claimed, IH; [reflexivity | | |];
    try assumption.
  now rewrite G.
Qed.

Lemma claimed_instance_stays_active_witness :
  run_steps (repeat Tick 4) activeInstance = (repeat (Ok tt) 4, activeInstance).
Proof.
  exact (claimed_instance_stays_active activeInstance 4 eq_refl eq_refl eq_refl).
Defined.

(** ** The shape test on addresses *)

Section AddressShape.

Context {X : Type}.

Lemma starGreedy_some (p : N -> bool) (s : JSString)
      (k : JSString -> option X) :
  (exists x, starGreedy p s k = Some x)
  <-> exists pre post, s = pre ++ post
                       /\ Forall (fun c => p c = true) pre
                       /\ exists x, k post = Some x.
Proof.
  split.
  - induction s as [|c s IH]; simpl; intros [x Hx].
    + exists [], []. repeat split; eauto.
    + destruct (p c) eqn:Pc.
      * destruct (starGreedy p s k) as [y|] eqn:E.
        -- destruct IH as (pre & post & -> & Hpre & Hk); [eauto|].
           exists (c :: pre), post. repeat split; auto.
        -- exists [], (c :: s). repeat split; eauto.
      * exists [], (c :: s). repeat split; eauto.
  - intros (pre & post & -> & Hpre & x & Hx).
    induction Hpre as [|c pre Hc _ IH]; simpl.
    + destruct post as [|c post]; simpl; [eauto|].
      destruct (p c); [|eauto].
      destruct (starGreedy p post k); eauto.
    + rewrite Hc. destruct IH as [y ->]. eauto.
Qed.

Lemma plus_some (p : N -> bool) (s : JSString) (cap : option JSString)
      (k : JSString -> option JSString -> option X) :
  (exists x, rmatch (RPlus p) s cap k = Some x)
  <-> exists pre post, s = pre ++ post /\ pre <> []
                       /\ Forall (fun c => p c = true) pre
                       /\ exists x, k post cap = Some x.
Proof.
  cbn [rmatch]. split.
  - destruct s as [|c s]; [intros [x Hx]; discriminate|].
    destruct (p c) eqn:Pc; [|intros [x Hx]; discriminate].
    intros H. apply starGreedy_some in H.
    destruct H as (pre & post & -> & Hpre & Hk).
    exists (c :: pre), post. repeat split; auto. discriminate.
  - intros (pre & post & -> & Hne & Hpre & Hk).
    destruct pre as [|c pre]; [congruence|].
    inversion Hpre as [|? ? Hc Hrest]; subst. simpl. rewrite Hc.
    apply starGreedy_some. exists pre, post. auto.
Qed.

Lemma class_some (p : N -> bool) (s : JSString) (cap : option JSString)
      (k : JSString -> option JSString -> option X) :
  (exists x, rmatch (RClass p) s cap k = Some x)
  <-> exists c post, s = c :: post /\ p c = true
                     /\ exists x, k post cap = Some x.
Proof.
  cbn [rmatch]. split.
  - destruct s as [|c s]; [intros [x Hx]; discriminate|].
    destruct (p c) eqn:Pc; [|intros [x Hx]; discriminate].
    intros H. exists c, s. auto.
  - intros (c & post & -> & Pc & Hk). now rewrite Pc.
Qed.

End AddressShape.

Section AddressShapeTest.

Lemma regexExec_some (r : Regex) (s : JSString) :
  (exists cap, regexExec r s = Some cap)
  <-> exists pre post, s = pre ++ post
        /\ exists cap, rmatch r post None (fun _ cap' => Some cap') = Some cap.
Proof.
  split.
  - induction s as [|c s IH]; cbn [regexExec]; intros [cap H].
    + destruct (rmatch r [] None _) eqn:E; [|discriminate].
      exists [], []. eauto.
    + destruct (rmatch r (c :: s) None _) eqn:E.
      * exists [], (c :: s). eauto.
      * destruct IH as (pre & post & -> & Hm); [eauto|].
        exists (c :: pre), post. auto.
  - intros (pre & post & -> & cap & H).
    induction pre as [|c pre IH].
    + exists cap. now apply regexExec_here.
    + change ((c :: pre) ++ post) with (c :: (pre ++ post)).
      cbn [regexExec].
      destruct (rmatch r (c :: pre ++ post) None _); [eauto | exact IH].
Qed.

(** The shape [EMAIL_SHAPE] looks for, anywhere in the text. *)
Lemma email_shape_here (s : JSString) :
  (exists cap, rmatch EMAIL_SHAPE s None (fun _ cap' => Some cap') = Some cap)
  <-> exists a b c rest,
        s = a ++ [64%N] ++ b ++ [46%N] ++ c ++ rest
        /\ a <> [] /\ b <> [] /\ c <> []
        /\ Forall (fun u => isWhiteSpace u = false) (a ++ b ++ c).
Proof.
  unfold EMAIL_SHAPE. cbn [rmatch]. fold (@rmatch (option JSString)).
  change (match s with
          | [] => None
          | c :: s' => if nonSpace c then starGreedy nonSpace s' ?k else None
          end) with (rmatch (RPlus nonSpace) s None (fun s'' _ => k s'')).
  split.
  - intros H. apply plus_some in H.
    destruct H as (a & s1 & -> & Ha & Hfa & H).
    destruct s1 as [|at_ s2]; [destruct H; discriminate|].
    destruct (N.eqb_spec 64 at_) as [<-|]; [|destruct H; discriminate].
    destruct s2 as [|b0 s3]; [destruct H; discriminate|].
    destruct (nonSpace b0) eqn:Hb0; [|destruct H; discriminate].
    apply starGreedy_some in H.
    destruct H as (b & s4 & -> & Hfb & H).
    destruct s4 as [|dot s5]; [destruct H; discriminate|].
    destruct (N.eqb_spec 46 dot) as [<-|]; [|destruct H; discriminate].
    destruct s5 as [|c0 s6]; [destruct H; discriminate|].
    destruct (nonSpace c0) eqn:Hc0; [|destruct H; discriminate].
    apply starGreedy_some in H.
    destruct H as (c & rest & -> & Hfc & _).
    exists a, (b0 :: b), (c0 :: c), rest.
    split; [reflexivity|].
    split; [exact Ha|]. split; [discriminate|]. split; [discriminate|].
    assert (Hn : forall l, Forall (fun u => nonSpace u = true) l ->
                           Forall (fun u => isWhiteSpace u = false) l).
    { intros l Hl. eapply Forall_impl; [|exact Hl].
      intros u Hu. now apply Bool.negb_true_iff. }
    apply Forall_app. split; [now apply Hn|].
    apply (Forall_app _ (b0 :: b) (c0 :: c)). split; apply Hn; now constructor.
  - intros (a & b & c & rest & -> & Ha & Hb & Hc & Hall).
    apply Forall_app in Hall. destruct Hall as [Hfa Hall].
    apply Forall_app in Hall. destruct Hall as [Hfb Hfc].
    assert (Hn : forall l, Forall (fun u => isWhiteSpace u = false) l ->
                           Forall (fun u => nonSpace u = true) l).
    { intros l Hl. eapply Forall_impl; [|exact Hl].
      intros u Hu. now apply Bool.negb_true_iff. }
    apply plus_some. exists a, ([64%N] ++ b ++ [46%N] ++ c ++ rest).
    split; [reflexivity|]. split; [exact Ha|]. split; [now apply Hn|].
    destruct b as [|b0 b]; [congruence|]. destruct c as [|c0 c]; [congruence|].
    apply Hn in Hfb, Hfc.
    inversion Hfb as [|? ? Hb0 Hfb']; subst.
    inversion Hfc as [|? ? Hc0 Hfc']; subst.
    simpl. rewrite Hb0.
    apply starGreedy_some. exists b, ([46%N] ++ (c0 :: c) ++ rest).
    split; [reflexivity|]. split; [exact Hfb'|].
    simpl. rewrite Hc0.
    apply starGreedy_some. exists c, rest. eauto.
Qed.

End AddressShapeTest.

(** X22: the address test of [handleAddCollaborator] passes exactly the
    texts that hold, somewhere, a non-empty run without white space, an at
    sign, another such run, a dot, and another such run; anything may
    come before and after.  A collaborator is only ever added for a typed
    text of that shape. *)
Theorem address_shape_test :
  forall (JSON_stringify : list Collaborator.t -> option string)
         (nowText isoNow1 isoNow2 : JSString)
         (st : SettingsState) (b : Browser),
    let shaped := fun s : JSString =>
      exists pre a b' c rest,
        s = pre ++ a ++ [64%N] ++ b' ++ [46%N] ++ c ++ rest
        /\ a <> [] /\ b' <> [] /\ c <> []
        /\ Forall (fun u => isWhiteSpace u = false) (a ++ b' ++ c) in
    (forall s, regexTest EMAIL_SHAPE s = true <-> shaped s)
    /\ (collaborators
          (fst (handleAddCollaborator JSON_stringify nowText isoNow1 isoNow2
                  st b)) <> collaborators st ->
        shaped (newCollaboratorEmail st)).
Proof.
  intros JSON_stringify nowText isoNow1 isoNow2 st b shaped.
  assert (Hiff : forall s, regexTest EMAIL_SHAPE s = true <-> shaped s).
  { intros s. unfold regexTest, shaped. split.
    - intros H.
      destruct (regexExec EMAIL_SHAPE s) as [cap|] eqn:E; [|discriminate].
      assert (Hex : exists cap, regexExec EMAIL_SHAPE s = Some cap) by eauto.
      apply regexExec_some in Hex. destruct Hex as (pre & post & -> & Hm).
      apply email_shape_here in Hm.
      destruct Hm as (a & b' & c & rest & -> & Hrest).
      exists pre, a, b', c, rest. auto.
    - intros (pre & a & b' & c & rest & -> & Hrest).
      assert (Hex : exists cap,
                 regexExec EMAIL_SHAPE
                   (pre ++ a ++ [64%N] ++ b' ++ [46%N] ++ c ++ rest) = Some cap).
      { apply regexExec_some.
        exists pre, (a ++ [64%N] ++ b' ++ [46%N] ++ c ++ rest).
        split; [reflexivity|]. apply email_shape_here.
        exists a, b', c, rest. auto. }
      destruct Hex as [cap ->]. reflexivity. }
  split; [exact Hiff|].
  intros Hgrew. apply Hiff.
  unfold handleAddCollaborator in Hgrew.
  destruct (regexTest EMAIL_SHAPE (newCollaboratorEmail st)); [reflexivity|].
  rewrite Bool.orb_true_r in Hgrew. simpl in Hgrew. congruence.
Qed.

Lemma address_shape_test_witness :
  regexTest EMAIL_SHAPE (ofAscii "to: a@b.c, please") = true.
Proof.
  apply (proj1 (address_shape_test anyText [] [] []
                  (mkSettingsState [] [] []) sampleBrowser)).
  exists (ofAscii "to: "), (ofAscii "a"), (ofAscii "b"), (ofAscii "c,"),
         (ofAscii " please").
  split; [reflexivity|]. split; [discriminate|]. split; [discriminate|].
  split; [discriminate|]. repeat constructor.
Defined.

(** ** The CSV export *)

Section CsvFacts.

Lemma readQuoted_doubleQuotes (field rest acc : JSString) :
  hd 0%N rest <> QUOTE ->
  readQuoted (doubleQuotes field ++ QUOTE :: rest) acc
  = Some (rev acc ++ field, rest).
Proof.
  intros Hrest. revert acc.
  induction field as [|c field IH]; intros acc.
  - cbn [doubleQuotes app readQuoted]. rewrite N.eqb_refl, app_nil_r.
    destruct rest as [|c' rest']; [reflexivity|].
    cbn [hd] in Hrest. apply N.eqb_neq in Hrest. now rewrite Hrest.
  - cbn [doubleQuotes]. destruct (N.eqb_spec c QUOTE) as [->|Hc].
    + cbn [app readQuoted]. rewrite !N.eqb_refl, IH.
      cbn [rev]. now rewrite <- app_assoc.
    + cbn [app readQuoted]. apply N.eqb_neq in Hc. rewrite Hc, IH.
      cbn [rev]. now rewrite <- app_assoc.
Qed.

Lemma readQuotedField_escapeCsv (field rest : JSString) :
  hd 0%N rest <> QUOTE ->
  readQuotedField (escapeCsv field ++ rest) = Some (field, rest).
Proof.
  intros Hrest. unfold escapeCsv, readQuotedField.
  cbn [app]. rewrite N.eqb_refl, <- app_assoc. cbn [app].
  now rewrite readQuoted_doubleQuotes.
Qed.


End CsvFacts.

(** X23: [escapeCsv] writes a quoted field that reads back as the text it
    was given, whatever the text holds (commas, line breaks, quotation
    marks) and whatever follows the field, as long as that is not a
    quotation mark; so two different texts never give the same field. *)
Theorem escapeCsv_reads_back :
  forall field rest : JSString,
    (hd 0%N rest <> QUOTE ->
     readQuotedField (escapeCsv field ++ rest) = Some (field, rest))
    /\ (forall other, escapeCsv field = escapeCsv other -> field = other).
Proof.
  intros field rest. split.
  - apply readQuotedField_escapeCsv.
  - intros other E.
    assert (H1 : readQuotedField (escapeCsv field ++ []) = Some (field, []))
      by (apply readQuotedField_escapeCsv; discriminate).
    assert (H2 : readQuotedField (escapeCsv other ++ []) = Some (other, []))
      by (apply readQuotedField_escapeCsv; discriminate).
    rewrite E in H1. congruence.
Qed.

Lemma escapeCsv_reads_back_witness :
  readQuotedField (escapeCsv (ofAscii "a,b") ++ [COMMA])
  = Some (ofAscii "a,b", [COMMA]).
Proof.
  assert (Hh : hd 0%N [COMMA] <> QUOTE) by discriminate.
  exact (proj1 (escapeCsv_reads_back (ofAscii "a,b") [COMMA]) Hh).
Defined.



(** ** Addresses and credits *)

Section UrlFacts.

Lemma trimStart_In (c : N) (s : JSString) : In c (trimStart s) -> In c s.
Proof.
  induction s as [|x s IH]; simpl; [tauto|].
  destruct (isWhiteSpace x); [intros H; right; now apply IH | simpl; tauto].
Qed.

Lemma trimStart_head (s : JSString) :
  trimStart s <> [] -> isWhiteSpace (hd 0%N (trimStart s)) = false.
Proof.
  induction s as [|x s IH]; simpl; [congruence|].
  destruct (isWhiteSpace x) eqn:W; [exact IH | intros _; exact W].
Qed.

Lemma trim_In (c : N) (s : JSString) : In c (trim s) -> In c s.
Proof.
  unfold trim, trimEnd. intros H.
  apply in_rev, trimStart_In in H. apply in_rev in H.
  now apply trimStart_In.
Qed.

Lemma trim_last (s : JSString) :
  trim s <> [] -> isWhiteSpace (last (trim s) 0%N) = false.
Proof.
  unfold trim, trimEnd.
  pose proof (trimStart_head (rev (trimStart s))) as H.
  destruct (trimStart (rev (trimStart s))) as [|c t]; [simpl; congruence|].
  intros _. cbn [rev]. rewrite last_last. apply H. discriminate.
Qed.

Lemma splitOn_no_separator (sep : N) (s piece : JSString) :
  In piece (splitOn sep s) -> ~ In sep piece.
Proof.
  revert piece. induction s as [|c s IH]; intros piece; cbn [splitOn].
  - intros [<-|[]]. simpl. tauto.
  - destruct (N.eqb_spec c sep) as [->|Hc].
    + intros [<-|H]; [simpl; tauto | now apply IH].
    + destruct (splitOn sep s) as [|p ps].
      * intros [<-|[]]. simpl. intros [E|[]]. congruence.
      * intros [<-|H].
        -- intros [E|H']; [congruence | apply (IH p); [now left | exact H']].
        -- apply IH. now right.
Qed.

Lemma In_firstn_In {A : Type} (n : nat) (x : A) (l : list A) :
  In x (firstn n l) -> In x l.
Proof.
  intros H. rewrite <- (firstn_skipn n l). apply in_or_app. now left.
Qed.

Lemma length_removeAt (index : nat) (l : list JSString) :
  length (removeAt index l)
  = if Nat.ltb index (length l) then length l - 1 else length l.
Proof.
  revert index. induction l as [|x l IH]; intros [|i]; simpl; try lia.
  rewrite IH. change (Nat.ltb (S i) (S (length l))) with (Nat.ltb i (length l)).
  destruct (Nat.ltb_spec i (length l)); lia.
Qed.

End UrlFacts.

(** X25: whatever is typed, at most twenty product addresses are kept and
    the generation never costs more than 200 credits; every address kept
    is a trimmed line of the input that begins with [http], ends with a
    unit that is not white space and holds no line feed. *)
Theorem product_urls_are_bounded_and_clean :
  forall productUrlsInput : JSString,
    length (productUrls productUrlsInput) <= 20
    /\ productCreditCost productUrlsInput <= 200
    /\ forall url, In url (productUrls productUrlsInput) ->
         startsWith (ofAscii "http") url = true
         /\ isWhiteSpace (last url 0%N) = false
         /\ ~ In LINE_FEED url
         /\ exists line, In line (splitOn LINE_FEED productUrlsInput)
                         /\ url = trim line.
Proof.
  intros input.
  assert (Hlen : length (productUrls input) <= 20)
    by apply firstn_le_length.
  split; [exact Hlen|]. split; [unfold productCreditCost; lia|].
  intros url Hin. unfold productUrls in Hin.
  apply In_firstn_In, filter_In in Hin. destruct Hin as [Hin Hok].
  apply andb_prop in Hok. destruct Hok as [Hnonempty Hhttp].
  apply in_map_iff in Hin. destruct Hin as (line & <- & Hline).
  split; [exact Hhttp|]. split; [|split].
  - apply trim_last. intros E. rewrite E in Hnonempty. discriminate.
  - intros Hlf. apply trim_In in Hlf.
    now apply (splitOn_no_separator LINE_FEED input line).
  - exists line. auto.
Qed.

Lemma product_urls_are_bounded_and_clean_witness :
  startsWith (ofAscii "http") (ofAscii "https://a.example") = true
  /\ isWhiteSpace (last (ofAscii "https://a.example") 0%N) = false.
Proof.
  destruct (product_urls_are_bounded_and_clean (ofAscii "  https://a.example "))
    as (_ & _ & H).
  destruct (H (ofAscii "https://a.example") (or_introl eq_refl))
    as (Hs & Hl & _).
  split; [exact Hs | exact Hl].
Defined.

(** X26: the list of competitor addresses keeps between one and four
    entries under [addUrlInput] and [removeUrlInput], whatever index is
    given; a removal at a valid index of a list of more than one entry
    takes exactly one entry away; adding an input never changes the cost,
    and the cost of an analysis is at most 200 credits. *)
Theorem competitor_urls_stay_between_one_and_four :
  forall (competitorUrls : list JSString) (index : nat),
    1 <= length competitorUrls <= 4 ->
    1 <= length (addUrlInput competitorUrls) <= 4
    /\ 1 <= length (removeUrlInput index competitorUrls) <= 4
    /\ (index < length competitorUrls -> 1 < length competitorUrls ->
        length (removeUrlInput index competitorUrls)
        = length competitorUrls - 1)
    /\ analysisCreditCost (addUrlInput competitorUrls)
       = analysisCreditCost competitorUrls
    /\ analysisCreditCost competitorUrls <= 200.
Proof.
  intros urls index Hlen.
  split; [|split; [|split; [|split]]].
  - unfold addUrlInput. destruct (Nat.ltb_spec (length urls) 4); [|lia].
    rewrite length_app. simpl. lia.
  - unfold removeUrlInput. destruct (Nat.ltb_spec 1 (length urls)); [|lia].
    rewrite length_removeAt. destruct (Nat.ltb index (length urls)); lia.
  - intros Hi Hmore. unfold removeUrlInput.
    destruct (Nat.ltb_spec 1 (length urls)); [|lia].
    rewrite length_removeAt.
    destruct (Nat.ltb_spec index (length urls)); lia.
  - unfold analysisCreditCost, addUrlInput.
    destruct (Nat.ltb (length urls) 4); [|reflexivity].
    unfold urlsToAnalyze. rewrite filter_app. cbn [filter].
    change (negb (jsstring_eqb (trim []) []) && _) with false. cbv iota.
    now rewrite app_nil_r.
  - unfold analysisCreditCost, urlsToAnalyze.
    pose proof (filter_length_le
                  (fun url => negb (jsstring_eqb (trim url) [])
                              && (startsWith (ofAscii "http://") url
                                  || startsWith (ofAscii "https://") url))
                  urls).
    lia.
Qed.

Lemma competitor_urls_stay_between_one_and_four_witness :
  length (removeUrlInput 0 [ofAscii "https://a.example"; []]) = 1
  /\ analysisCreditCost [ofAscii "https://a.example"; []] <= 200.
Proof.
  assert (Hlen : 1 <= length [ofAscii "https://a.example"; []] <= 4)
    by (simpl; lia).
  destruct (competitor_urls_stay_between_one_and_four
              [ofAscii "https://a.example"; []] 0 Hlen)
    as (_ & _ & Hr & _ & Hc).
  split; [apply Hr; simpl; lia | exact Hc].
Defined.
